(** * context_engine: tokenizer, inverted index, ranked search, precision@k

    A shallow embedding of [src/context_practice/context_engine.py] and the
    properties of its four functions [tokenize], [build_index], [search] and
    [precision_at_k].

    Modelling choices, each following the Python source:
    - a [str] is a [string]; its characters stand for the code points 0..255
      (ASCII and the Latin-1 supplement), and [str.lower], [str.isalnum] and
      the whitespace of [str.split] follow CPython's tables on that range,
      where [str.lower] maps character by character. Beyond it [str.lower]
      depends on the context (U+03A3) and leaves some uppercase letters as
      they are (U+2102), so a statement about the letters of every text is
      made for ASCII text or at a concrete text;
    - a [dict] is an association list in insertion order (Python dicts iterate
      in insertion order, and [search] iterates two of them);
    - an [int] is a [Z];
    - a raised [KeyError] is a value of [result];
    - the float returned by [precision_at_k] is the rational it rounds. *)

From Stdlib Require Import List String Ascii ZArith NArith QArith Bool Lia.
From Stdlib Require Import ListSet Sorted.
Import ListNotations.

Close Scope Q_scope.
Open Scope string_scope.
Open Scope list_scope.
Open Scope Z_scope.

(** ** Python strings *)

Module PyStr.

Definition ord (c : ascii) : N := N_of_ascii c.

Definition between (lo hi : N) (c : ascii) : bool :=
  ((lo <=? ord c) && (ord c <=? hi))%N.

(** [str.isalnum] on one character: letters (the letter categories), decimal
    digits, and the characters with a digit or numeric value. *)
Definition isalnum (c : ascii) : bool :=
  between 48 57 c || between 65 90 c || between 97 122 c
  || between 170 170 c || between 178 179 c || between 181 181 c
  || between 185 186 c || between 188 190 c
  || between 192 214 c || between 216 246 c || between 248 255 c.

(** The characters [str.lower] changes, i.e. the uppercase letters. *)
Definition isupper (c : ascii) : bool :=
  between 65 90 c || between 192 214 c || between 216 222 c.

(** The separators of [str.split()] called with no argument. *)
Definition isspace (c : ascii) : bool :=
  between 9 13 c || between 28 32 c || between 133 133 c
  || between 160 160 c.

(** Unicode punctuation and symbol categories. *)
Definition ispunct (c : ascii) : bool :=
  between 33 47 c || between 58 64 c || between 91 96 c
  || between 123 126 c || between 161 169 c || between 171 172 c
  || between 174 177 c || between 180 180 c || between 182 184 c
  || between 187 187 c || between 191 191 c || between 215 215 c
  || between 247 247 c.

Definition is_ascii (c : ascii) : bool := (ord c <? 128)%N.

(** The character class [a-z0-9] of the docstring of [tokenize]. *)
Definition is_az09 (c : ascii) : bool :=
  between 97 122 c || between 48 57 c.

Definition lower_char (c : ascii) : ascii :=
  if isupper c then ascii_of_N (ord c + 32) else c.

Fixpoint map_str (f : ascii -> ascii) (s : string) : string :=
  match s with
  | EmptyString => EmptyString
  | String c s' => String (f c) (map_str f s')
  end.

(** [s.lower()] *)
Definition lower (s : string) : string := map_str lower_char s.

Definition chars (s : string) : list ascii := list_ascii_of_string s.

Definition flush (cur : string) : list string :=
  match cur with
  | EmptyString => []
  | _ => [cur]
  end.

(** [split_from cur s]: the words of [s], where [cur] is the word read so
    far. *)
Fixpoint split_from (cur : string) (s : string) : list string :=
  match s with
  | EmptyString => flush cur
  | String c s' =>
      if isspace c then flush cur ++ split_from EmptyString s'
      else split_from (cur ++ String c EmptyString)%string s'
  end.

(** [s.split()]: maximal runs of non-whitespace characters. *)
Definition split (s : string) : list string := split_from EmptyString s.

End PyStr.

(** ** Python dicts, in insertion order *)

Module PyDict.

Definition dict (V : Type) : Type := list (string * V).

Section Ops.
Context {V : Type}.

(** [d.get(k)] *)
Fixpoint dict_get (k : string) (d : dict V) : option V :=
  match d with
  | [] => None
  | (k', v) :: d' => if String.eqb k k' then Some v else dict_get k d'
  end.

(** [k in d] *)
Definition dict_mem (k : string) (d : dict V) : bool :=
  match dict_get k d with Some _ => true | None => false end.

(** [d.get(k, dflt)], also what a [defaultdict] reads at [k]. *)
Definition dict_get_or (dflt : V) (k : string) (d : dict V) : V :=
  match dict_get k d with Some v => v | None => dflt end.

(** [d[k] = v]: an existing key keeps its place, a new one goes last. *)
Fixpoint dict_set (k : string) (v : V) (d : dict V) : dict V :=
  match d with
  | [] => [(k, v)]
  | (k', v') :: d' =>
      if String.eqb k k' then (k', v) :: d'
      else (k', v') :: dict_set k v d'
  end.

Definition keys (d : dict V) : list string := map fst d.

End Ops.

(** [d[k] += n] on a [defaultdict(int)] *)
Definition dict_add (k : string) (n : Z) (d : dict Z) : dict Z :=
  dict_set k (dict_get_or 0 k d + n) d.

(** [collections.Counter(xs)]: each element counted, in order of first
    occurrence. *)
Definition Counter (xs : list string) : dict Z :=
  fold_left (fun c x => dict_add x 1 c) xs [].

End PyDict.

(** ** Exceptions *)

Inductive exn : Type :=
| KeyError (key : string).

Inductive result (A : Type) : Type :=
| Ok (a : A)
| Raise (e : exn).

Arguments Ok {A} a.
Arguments Raise {A} e.

Definition bind {A B : Type} (r : result A) (k : A -> result B) : result B :=
  match r with
  | Ok a => k a
  | Raise e => Raise e
  end.

Notation "x <- r ;; k" := (bind r (fun x => k))
  (at level 61, r at next level, right associativity).

(** A [for] loop whose body may raise. *)
Fixpoint for_each {A S : Type} (body : S -> A -> result S) (xs : list A)
  (s : S) : result S :=
  match xs with
  | [] => Ok s
  | x :: xs' => s' <- body s x ;; for_each body xs' s'
  end.

(** ** The engine *)

Module ContextEngine.
Import PyStr PyDict.

Record Document : Type := mkDocument {
  id : string;
  title : string;
  body : string;
  tags : list string;
  access_level : Z
}.

(** [search] stores the accumulated [int] in [score] and never converts
    it; [precision_at_k] does not read [score]. *)
Record SearchResult : Type := mkSearchResult {
  doc_id : string;
  score : Z
}.

Definition InvertedIndex : Type := dict (dict Z).

(** *** tokenize *)

Definition alnum_or_blank (c : ascii) : ascii :=
  if isalnum c || Ascii.eqb c " " then c else " "%char.

Definition tokenize (text : string) : list string :=
  split (map_str alnum_or_blank (lower text)).

(** *** build_index *)

(** [index[word][doc_id] = count] on a [defaultdict(dict)] *)
Definition index_put (word doc_id : string) (count : Z)
  (index : InvertedIndex) : InvertedIndex :=
  dict_set word (dict_set doc_id count (dict_get_or [] word index)) index.

Definition doc_tokens (doc : Document) : list string :=
  tokenize (title doc ++ " " ++ body doc)%string.

Definition index_count (doc : Document) (index : InvertedIndex)
  (item : string * Z) : InvertedIndex :=
  let (word, count) := item in
  if 0 <? count then index_put word (id doc) count index else index.

Definition index_document (index : InvertedIndex) (doc : Document)
  : InvertedIndex :=
  let counts := Counter (doc_tokens doc) in
  fold_left (index_count doc) counts index.

Definition build_index (documents : list Document) : InvertedIndex :=
  fold_left index_document documents [].

(** *** search *)

(** [{doc.id: doc for doc in documents}] *)
Definition id2doc_of (documents : list Document) : dict Document :=
  fold_left (fun m doc => dict_set (id doc) doc m) documents [].

(** [d[k]] on a plain dict *)
Definition subscript {V : Type} (d : dict V) (k : string) : result V :=
  match dict_get k d with
  | Some v => Ok v
  | None => Raise (KeyError k)
  end.

(** Truth value of an [int], and of an [int | None]. *)
Definition truthy (n : Z) : bool := negb (n =? 0).

Definition truthy_opt (o : option Z) : bool :=
  match o with
  | None => false
  | Some n => truthy n
  end.

(** The body of the inner loop: the [if]/[elif] on the access level. *)
Definition score_posting (id2doc : dict Document)
  (user_access_level : option Z) (scores : dict Z) (item : string * Z)
  : result (dict Z) :=
  let (doc_id, score) := item in
  doc <- subscript id2doc doc_id ;;
  if negb (truthy (access_level doc)) || negb (truthy_opt user_access_level)
  then Ok (dict_add doc_id score scores)
  else
    match user_access_level with
    | Some level =>
        if access_level doc <=? level
        then Ok (dict_add doc_id score scores)
        else Ok scores
    | None => Ok scores
    end.

(** The body of the outer loop. *)
Definition score_token (index : InvertedIndex) (id2doc : dict Document)
  (user_access_level : option Z) (scores : dict Z) (token : string)
  : result (dict Z) :=
  match dict_get token index with
  | Some postings =>
      for_each (score_posting id2doc user_access_level) postings scores
  | None => Ok scores
  end.

(** The sort key [(-x.score, x.doc_id)] and the order of Python tuples. *)
Definition sort_key (r : SearchResult) : Z * string :=
  (- score r, doc_id r).

Definition key_lt (a b : Z * string) : bool :=
  (fst a <? fst b) || ((fst a =? fst b) && String.ltb (snd a) (snd b)).

(** [list.sort] is stable; a stable insertion sort has the same result. *)
Fixpoint insert_result (x : SearchResult) (l : list SearchResult)
  : list SearchResult :=
  match l with
  | [] => [x]
  | y :: l' =>
      if key_lt (sort_key y) (sort_key x) then y :: insert_result x l'
      else x :: y :: l'
  end.

Definition sort_results (l : list SearchResult) : list SearchResult :=
  fold_right insert_result [] l.

(** [l[:n]]: a negative [n] counts from the end. *)
Definition slice_to {A : Type} (l : list A) (n : Z) : list A :=
  if n <? 0 then firstn (Z.to_nat (Z.of_nat (List.length l) + n)) l
  else firstn (Z.to_nat n) l.

Definition to_result (item : string * Z) : SearchResult :=
  mkSearchResult (fst item) (snd item).

(** Everything up to and including the sort. *)
Definition ranked (index : InvertedIndex) (documents : list Document)
  (query : string) (user_access_level : option Z)
  : result (list SearchResult) :=
  let query_tokens := tokenize query in
  let id2doc := id2doc_of documents in
  scores <- for_each (score_token index id2doc user_access_level)
              query_tokens [] ;;
  Ok (sort_results (map to_result scores)).

Definition search (index : InvertedIndex) (documents : list Document)
  (query : string) (max_results : Z) (user_access_level : option Z)
  : result (list SearchResult) :=
  results <- ranked index documents query user_access_level ;;
  Ok (slice_to results max_results).

(** *** precision_at_k *)

Definition count_relevant (gold_relevant : set string)
  (l : list SearchResult) : Z :=
  fold_left
    (fun count res =>
       if set_mem string_dec (doc_id res) gold_relevant then count + 1
       else count)
    l 0.

Definition precision_at_k (gold_relevant : set string)
  (retrieved : list SearchResult) (k : Z) : Q :=
  if k <=? 0 then 0%Q
  else (inject_Z (count_relevant gold_relevant (slice_to retrieved k))
        / inject_Z k)%Q.

End ContextEngine.

Import PyStr PyDict ContextEngine.

(** The documents of [test_context_engine.py]. *)
Definition sample_docs : list Document :=
  [ mkDocument "doc1" "Intro to Retrieval-Augmented Generation"
      "RAG connects LLMs to external knowledge bases." ["rag"; "llm"] 1;
    mkDocument "doc2" "Context engineering best practices"
      "Chunking, retrieval, and prompting work together."
      ["context"; "best-practices"] 2;
    mkDocument "doc3" "Private customer runbook"
      "Contains sensitive onboarding steps for enterprise customers."
      ["internal"; "runbook"] 3 ].

(** ** The document chunker ([chunker.py]) *)

Module Chunker.
Import PyDict.

Inductive ChunkStrategy : Type :=
| FIXED_SIZE
| SENTENCE
| PARAGRAPH.

(** The values that the metadata dict of a chunk holds. *)
Inductive Any : Type :=
| AStr (s : string)
| AInt (n : Z)
| AStrategy (s : ChunkStrategy).

Record Chunk : Type := mkChunk {
  chunk_id : Z;
  text : string;
  start_pos : Z;
  end_pos : Z;
  metadata : dict Any
}.

Record DocumentChunker : Type := mkDocumentChunker {
  strategy : ChunkStrategy;
  chunk_size : Z;
  overlap : Z
}.

(** [len(s)] *)
Definition len (s : string) : Z := Z.of_nat (String.length s).

(** A slice bound [i] brought into [0..n]: a negative bound counts from the
    end. *)
Definition clamp (n i : Z) : Z :=
  if i <? 0 then Z.max (i + n) 0 else Z.min i n.

(** [s[lo:hi]] *)
Definition slice (s : string) (lo hi : Z) : string :=
  let a := clamp (len s) lo in
  let b := clamp (len s) hi in
  substring (Z.to_nat a) (Z.to_nat (b - a)) s.

(** [s[lo:]] *)
Definition slice_from (s : string) (lo : Z) : string :=
  let a := clamp (len s) lo in
  substring (Z.to_nat a) (Z.to_nat (len s - a)) s.

Definition _estimate_tokens (text : string) : Z := len text / 4.

(** The metadata literal of [_chunk_fixed_size]. *)
Definition chunk_metadata (self : DocumentChunker) (doc_id text : string)
  : dict Any :=
  [ ("doc_id", AStr doc_id);
    ("token_count", AInt (_estimate_tokens text));
    ("strategy", AStrategy (strategy self)) ].

(** The [while ep < doc_len] loop, run for at most [fuel] tests of its
    condition; [None] when the fuel runs out. It returns the [sp] and [id_]
    that the code after the loop reads, and the chunks. *)
Fixpoint fixed_size_loop (fuel : nat) (self : DocumentChunker)
  (document doc_id : string) (sp ep id_ : Z) (chunks : list Chunk)
  : option (Z * Z * list Chunk) :=
  match fuel with
  | O => None
  | S fuel' =>
      if ep <? len document then
        let text := slice document sp ep in
        let chunk :=
          mkChunk id_ text sp (ep - 1) (chunk_metadata self doc_id text) in
        let sp' := ep - overlap self in
        fixed_size_loop fuel' self document doc_id
          sp' (sp' + chunk_size self) (id_ + 1) (chunks ++ [chunk])
      else Some (sp, id_, chunks)
  end.

Definition _chunk_fixed_size (fuel : nat) (self : DocumentChunker)
  (document doc_id : string) : option (list Chunk) :=
  match fixed_size_loop fuel self document doc_id
          0 (chunk_size self) 0 [] with
  | None => None
  | Some (sp, id_, chunks) =>
      if sp <? len document then
        let text := slice_from document sp in
        Some (chunks
              ++ [mkChunk id_ text sp (len document - 1)
                    (chunk_metadata self doc_id text)])
      else Some chunks
  end.

(** What [chunk_document] returns: a list, or the [None] of a method whose
    body is [pass]. *)
Inductive returned : Type :=
| Chunks (chunks : list Chunk)
| PyNone.

Definition chunk_document (fuel : nat) (self : DocumentChunker)
  (document doc_id : string) : option returned :=
  match strategy self with
  | FIXED_SIZE =>
      option_map Chunks (_chunk_fixed_size fuel self document doc_id)
  | SENTENCE => Some PyNone
  | PARAGRAPH => Some PyNone
  end.

End Chunker.

(** ** Outcomes of calls that may raise ([iterators.py], [generators.py],
    [oops.py]) *)

Module Py.

Inductive raised : Type :=
| IndexError
| ZeroDivisionError
| ValueError
| KeyError_.

Inductive outcome (A : Type) : Type :=
| Returns (a : A)
| Raises (e : raised).

Arguments Returns {A} a.
Arguments Raises {A} e.

Definition and_then {A B : Type} (o : outcome A) (k : A -> outcome B)
  : outcome B :=
  match o with
  | Returns a => k a
  | Raises e => Raises e
  end.

(** [len(l)] *)
Definition llen {A : Type} (l : list A) : Z := Z.of_nat (List.length l).

(** A slice bound [i] brought into [0..n]. *)
Definition bound (n i : Z) : Z :=
  if i <? 0 then Z.max (i + n) 0 else Z.min i n.

(** [l[lo:hi]] *)
Definition lslice {A : Type} (l : list A) (lo hi : Z) : list A :=
  let a := bound (llen l) lo in
  let b := bound (llen l) hi in
  firstn (Z.to_nat (b - a)) (skipn (Z.to_nat a) l).

(** [l[:hi]] and [l[lo:]] *)
Definition lslice_to {A : Type} (l : list A) (hi : Z) : list A :=
  lslice l 0 hi.

Definition lslice_from {A : Type} (l : list A) (lo : Z) : list A :=
  lslice l lo (llen l).

(** The list [l] with position [n] replaced. *)
Fixpoint replace_nth {A : Type} (n : nat) (x : A) (l : list A) : list A :=
  match l, n with
  | [], _ => []
  | _ :: l', O => x :: l'
  | y :: l', S n' => y :: replace_nth n' x l'
  end.

(** [l[i] = x]: a negative index counts from the end; an index outside the
    list raises [IndexError]. *)
Definition assign {A : Type} (l : list A) (i : Z) (x : A)
  : outcome (list A) :=
  let j := if i <? 0 then i + llen l else i in
  if (0 <=? j) && (j <? llen l)
  then Returns (replace_nth (Z.to_nat j) x l)
  else Raises IndexError.

(** [a % b] *)
Definition pymod (a b : Z) : outcome Z :=
  if b =? 0 then Raises ZeroDivisionError else Returns (a mod b).

(** [len(range(start, stop, step))], as CPython computes it. *)
Definition range_length (start stop step : Z) : Z :=
  if 0 <? step then
    if start <? stop then (stop - start + step - 1) / step else 0
  else
    if stop <? start then (start - stop - step - 1) / (- step) else 0.

(** [list(range(start, stop, step))]: a step of 0 raises [ValueError]. *)
Definition range (start stop step : Z) : outcome (list Z) :=
  if step =? 0 then Raises ValueError
  else Returns
         (map (fun j => start + Z.of_nat j * step)
            (seq 0 (Z.to_nat (range_length start stop step)))).

End Py.

(** ** [iterators.py] *)

Module Iterators.
Import Py.

(** The slots hold [None] until an item is stored. *)
Record CircularBuffer (A : Type) : Type := mkCircularBuffer {
  size : Z;
  buffer : list (option A);
  index : Z;
  count : Z
}.

Arguments mkCircularBuffer {A} size buffer index count.
Arguments size {A} c.
Arguments buffer {A} c.
Arguments index {A} c.
Arguments count {A} c.

(** [[None] * size]: empty when [size <= 0]. *)
Definition init {A : Type} (size : Z) : CircularBuffer A :=
  mkCircularBuffer size (repeat None (Z.to_nat size)) 0 0.

Definition add {A : Type} (self : CircularBuffer A) (item : A)
  : outcome (CircularBuffer A) :=
  and_then (assign (buffer self) (index self) (Some item)) (fun buffer' =>
  and_then (pymod (index self + 1) (size self)) (fun index' =>
  Returns (mkCircularBuffer (size self) buffer' index'
             (Z.min (count self + 1) (size self))))).

(** [list(self)] *)
Definition iter {A : Type} (self : CircularBuffer A) : list (option A) :=
  if count self =? 0 then []
  else if count self <? size self then lslice_to (buffer self) (count self)
  else (lslice_from (buffer self) (index self)
        ++ lslice_to (buffer self) (index self))%list.

(** [add] called for each item in turn. *)
Fixpoint add_all {A : Type} (self : CircularBuffer A) (items : list A)
  : outcome (CircularBuffer A) :=
  match items with
  | [] => Returns self
  | x :: items' => and_then (add self x) (fun self' => add_all self' items')
  end.

End Iterators.

(** ** [generators.py] *)

Module Generators.
Import Py.

(** The batches that the generator yields when it is run to its end; the
    [ValueError] of [range] with a step of 0 is raised at the first
    [next]. *)
Definition batch_processor {A : Type} (data : list A) (batch_size : Z)
  : outcome (list (list A)) :=
  and_then (range 0 (llen data) batch_size) (fun starts =>
  Returns (map (fun i => lslice data i (i + batch_size)) starts)).

(** The [while a < limit] loop, run for at most [fuel] tests of its
    condition; [out] holds the values yielded so far. *)
Fixpoint fibonacci_loop (fuel : nat) (limit a b : Z) (out : list Z)
  : option (list Z) :=
  match fuel with
  | O => None
  | S fuel' =>
      if a <? limit
      then fibonacci_loop fuel' limit b (a + b) (out ++ [a])
      else Some out
  end.

Definition fibonacci_sequence (fuel : nat) (limit : Z) : option (list Z) :=
  fibonacci_loop fuel limit 0 1 [].

End Generators.

(** ** The task repository and service ([oops.py])

    A [Task] is a mutable object that the repository, the service and
    their callers share: [mark_done] changes the object that [get] and
    [create_task] returned. Objects live in a store, by address. *)

Module Oops.
Import Py.

Record Task : Type := mkTask {
  id : Z;
  title : string;
  is_done : bool;
  priority : Z
}.

(** [Task.validate_priority] *)
Definition validate_priority (priority : Z) : bool :=
  (1 <=? priority) && (priority <=? 5).

Definition address : Type := nat.

(** [self._tasks]: a dict from task id to Task object, in insertion
    order. *)
Definition task_dict : Type := list (Z * address).

Fixpoint tasks_get (k : Z) (d : task_dict) : option address :=
  match d with
  | [] => None
  | (k', a) :: d' => if k =? k' then Some a else tasks_get k d'
  end.

Fixpoint tasks_set (k : Z) (a : address) (d : task_dict) : task_dict :=
  match d with
  | [] => [(k, a)]
  | (k', a') :: d' =>
      if k =? k' then (k', a) :: d' else (k', a') :: tasks_set k a d'
  end.

(** The Task objects, the next free address, and the dict of the
    repository. *)
Record world : Type := mkWorld {
  objects : address -> Task;
  fresh : address;
  _tasks : task_dict
}.

(** [InMemoryTaskRepository()] over the objects of [w] *)
Definition new_repository (w : world) : world :=
  mkWorld (objects w) (fresh w) [].

(** [Task(id, title, is_done, priority)]: a new object. *)
Definition new_task (t : Task) (w : world) : address * world :=
  (fresh w,
   mkWorld (fun a => if Nat.eqb a (fresh w) then t else objects w a)
     (S (fresh w)) (_tasks w)).

Definition add (task : address) (w : world) : outcome unit * world :=
  let key := id (objects w task) in
  match tasks_get key (_tasks w) with
  | Some _ => (Raises ValueError, w)
  | None =>
      (Returns tt,
       mkWorld (objects w) (fresh w) (tasks_set key task (_tasks w)))
  end.

Definition get (task_id : Z) (w : world) : outcome address * world :=
  match tasks_get task_id (_tasks w) with
  | Some a => (Returns a, w)
  | None => (Raises KeyError_, w)
  end.

Definition list_all (w : world) : list address := map snd (_tasks w).

Definition list_open_tasks (w : world) : list address :=
  filter (fun a => negb (is_done (objects w a))) (map snd (_tasks w)).

(** [task.is_done = True] *)
Definition set_done (a : address) (w : world) : world :=
  mkWorld
    (fun b =>
       if Nat.eqb b a
       then mkTask (id (objects w a)) (title (objects w a)) true
              (priority (objects w a))
       else objects w b)
    (fresh w) (_tasks w).

(** [self._tasks[task_id]] raises [KeyError] for a missing id; a Task
    object is truthy, so the [else] branch is never taken. *)
Definition mark_done (task_id : Z) (w : world) : outcome unit * world :=
  match tasks_get task_id (_tasks w) with
  | Some a => (Returns tt, set_done a w)
  | None => (Raises KeyError_, w)
  end.

Fixpoint add_each (tasks : list address) (w : world) : outcome unit * world :=
  match tasks with
  | [] => (Returns tt, w)
  | task :: tasks' =>
      match add task w with
      | (Returns _, w') => add_each tasks' w'
      | (Raises e, w') => (Raises e, w')
      end
  end.

(** [InMemoryTaskRepository.from_tasks]: a new repository, filled by
    [add]. *)
Definition from_tasks (tasks : list address) (w : world)
  : outcome unit * world :=
  add_each tasks (new_repository w).

(** [TaskService]: its repository is the one of the world. *)
Record TaskService : Type := mkTaskService {
  _next_id : Z
}.

Definition create_task (task_title : string) (task_priority : Z)
  (self : TaskService) (w : world)
  : outcome address * (TaskService * world) :=
  let (_, w1) := new_task (mkTask (_next_id self) task_title false 1) w in
  if negb (validate_priority task_priority) then (Raises ValueError, (self, w1))
  else
    let (task, w2) :=
      new_task (mkTask (_next_id self) task_title false task_priority) w1 in
    match add task w2 with
    | (Returns _, w3) =>
        (Returns task, (mkTaskService (_next_id self + 1), w3))
    | (Raises e, w3) => (Raises e, (self, w3))
    end.

Definition complete_task (task_id : Z) (w : world) : outcome unit * world :=
  mark_done task_id w.

End Oops.

(** * Vocabulary of the properties *)

(** What the claim asks of every character of a token. *)
Definition token_char (c : ascii) : Prop :=
  isalnum c = true /\ isupper c = false /\ ispunct c = false
  /\ isspace c = false /\ (is_ascii c = true -> is_az09 c = true).

(** Text of ASCII characters only. *)
Definition ascii_text (s : string) : bool := forallb is_ascii (chars s).



Definition occurrences (x : string) (xs : list string) : Z :=
  Z.of_nat (count_occ string_dec xs x).

(** An entry [index[term][doc_id] = f] counts the occurrences of [term] in
    a document of [docs] with that id. *)
Definition entry_counts (docs : list Document) (term doc_id : string) (f : Z)
  : Prop :=
  exists doc,
    In doc docs /\ id doc = doc_id
    /\ f = occurrences term (doc_tokens doc) /\ 1 <= f.

Definition index_inv (docs : list Document) (index : InvertedIndex) : Prop :=
  NoDup (keys index)
  /\ forall term inner,
      In (term, inner) index ->
      inner <> [] /\ NoDup (keys inner)
      /\ forall doc_id f, In (doc_id, f) inner -> entry_counts docs term doc_id f.

(** [not_after a b]: the sort may leave [a] before [b]. *)
Definition not_after (a b : SearchResult) : Prop :=
  key_lt (sort_key b) (sort_key a) = false.

(** [ranks_before a b]: [a] has the higher score, or the same score and the
    smaller [doc_id]. *)
Definition ranks_before (a b : SearchResult) : Prop :=
  score b < score a
  \/ (score a = score b /\ String.ltb (doc_id a) (doc_id b) = true).

(** The decision of the [if]/[elif]: does the posting of [doc] count? *)
Definition passes (doc : Document) (user_access_level : option Z) : bool :=
  negb (truthy (access_level doc)) || negb (truthy_opt user_access_level)
  || match user_access_level with
     | Some level => access_level doc <=? level
     | None => false
     end.

(** The invariant of an inverted index: a document is listed under a term
    only if the term occurs in it, so every stored frequency is at least 1
    ([build_index]: "only those doc_ids should show up in the inner dict"). *)
Definition frequencies_positive (index : InvertedIndex) : Prop :=
  forall term inner doc_id f,
    In (term, inner) index -> In (doc_id, f) inner -> 1 <= f.

(** A posting of the index that the query reaches. *)
Definition reached (index : InvertedIndex) (tokens : list string)
  (doc_id : string) (f : Z) : Prop :=
  exists token postings,
    In token tokens /\ dict_get token index = Some postings
    /\ In (doc_id, f) postings.

Definition on_key {V : Type} (P : string -> bool) (kv : string * V) : bool :=
  P (fst kv).

(** The documents that [user_access_level] lets through. *)
Definition visible (id2doc : dict Document) (ual : option Z)
  (doc_id : string) : bool :=
  match dict_get doc_id id2doc with
  | Some doc => passes doc ual
  | None => false
  end.

Definition restrict (id2doc : dict Document) (ual : option Z)
  (scores : dict Z) : dict Z :=
  filter (on_key (visible id2doc ual)) scores.

(** [res.doc_id in gold_relevant] *)
Definition relevant (gold_relevant : set string) (res : SearchResult) : bool :=
  set_mem string_dec (doc_id res) gold_relevant.

(** The number of relevant entries among the first [min k (len l)]. *)
Definition hits (gold_relevant : set string) (l : list SearchResult) (k : Z)
  : Z :=
  Z.of_nat
    (List.length
       (filter (relevant gold_relevant)
          (firstn (Nat.min (Z.to_nat k) (List.length l)) l))).

(** A public and a restricted document about the same term. *)
Definition mixed_docs : list Document :=
  [ mkDocument "sec" "Secret rag" "rag internals" [] 3;
    mkDocument "pub" "Public notes" "rag notes" [] 0 ].

(** A word: not empty, and made of characters that [tokenize] keeps. *)
Definition word (w : string) : Prop :=
  w <> EmptyString /\ Forall token_char (chars w).

(** [index.get(term, {}).get(doc_id)] *)
Definition index_get (index : InvertedIndex) (term doc_id : string)
  : option Z :=
  match dict_get term index with
  | Some inner => dict_get doc_id inner
  | None => None
  end.

(** The score as a sum. *)
Definition Zsum (l : list Z) : Z := fold_right Z.add 0 l.

(** What the postings [index[token].items()] add to the score of [doc_id]. *)
Definition posting_total (doc_id : string) (postings : dict Z) : Z :=
  Zsum (map snd (filter (fun kv => String.eqb (fst kv) doc_id) postings)).

Definition token_score (index : InvertedIndex) (doc_id token : string) : Z :=
  match dict_get token index with
  | Some postings => posting_total doc_id postings
  | None => 0
  end.

(** The sum over the tokens of the query, a repeated token counted each
    time. *)
Definition query_score (index : InvertedIndex) (tokens : list string)
  (doc_id : string) : Z :=
  Zsum (map (token_score index doc_id) tokens).

(** The chunks of [_chunk_fixed_size], in closed form. *)
Module ChunkerSpec.
Import Chunker.

(** The distance between the starts of two consecutive chunks. *)
Definition stride (self : DocumentChunker) : Z :=
  chunk_size self - overlap self.

(** The chunk that pass [i] of the loop appends. *)
Definition loop_chunk (self : DocumentChunker) (document doc_id : string)
  (i : Z) : Chunk :=
  let sp := i * stride self in
  let text := slice document sp (sp + chunk_size self) in
  mkChunk i text sp (sp + chunk_size self - 1)
    (chunk_metadata self doc_id text).

(** The chunk appended after the loop, when the loop ran [i] times. *)
Definition last_chunk (self : DocumentChunker) (document doc_id : string)
  (i : Z) : Chunk :=
  let sp := i * stride self in
  let text := slice_from document sp in
  mkChunk i text sp (len document - 1) (chunk_metadata self doc_id text).

Definition loop_chunks (self : DocumentChunker) (document doc_id : string)
  (n : nat) : list Chunk :=
  map (fun i => loop_chunk self document doc_id (Z.of_nat i)) (seq 0 n).

(** The shape of one chunk of a document. *)
Definition chunk_of (self : DocumentChunker) (document doc_id : string)
  (i : nat) (c : Chunk) : Prop :=
  chunk_id c = Z.of_nat i
  /\ start_pos c = Z.of_nat i * (chunk_size self - overlap self)
  /\ 0 <= start_pos c <= end_pos c
  /\ end_pos c < len document
  /\ end_pos c - start_pos c + 1 <= chunk_size self
  /\ text c = slice document (start_pos c) (end_pos c + 1)
  /\ len (text c) = end_pos c - start_pos c + 1
  /\ metadata c = chunk_metadata self doc_id (text c).

End ChunkerSpec.

Module IteratorsSpec.
Import Py Iterators.

(** The last [n] elements of a list. *)
Definition keep {A : Type} (n : nat) (l : list A) : list A :=
  skipn (List.length l - n) l.

(** The state of a buffer of [n > 0] slots after some calls of [add]. *)
Record buffer_ok {A : Type} (n : nat) (b : CircularBuffer A) : Prop := {
  ok_size : size b = Z.of_nat n;
  ok_length : List.length (buffer b) = n;
  ok_index : 0 <= index b < Z.of_nat n;
  ok_count : 0 <= count b <= Z.of_nat n;
  ok_filling : count b < Z.of_nat n -> index b = count b
}.

End IteratorsSpec.

Module OopsSpec.
Import Py Oops.

(** A world with no Task object and an empty repository. *)
Definition empty_world : world :=
  mkWorld (fun _ => mkTask 0 "" false 0) 0%nat [].

(** The ids stored in the repository. *)
Definition task_keys (d : task_dict) : list Z := map fst d.

(** The ids of Task objects, read in the world [w]. *)
Definition ids_of (w : world) (tasks : list address) : list Z :=
  map (fun a => id (objects w a)) tasks.

(** The service alone fills the repository: every stored id is below the
    next id that the service hands out. *)
Definition serves (self : TaskService) (w : world) : Prop :=
  forall k, In k (task_keys (_tasks w)) -> k < _next_id self.

End OopsSpec.

(** The Fibonacci numbers 0, 1, 1, 2, 3, 5, ... *)
Fixpoint fib_pair (n : nat) : Z * Z :=
  match n with
  | O => (0, 1)
  | S n' => let (a, b) := fib_pair n' in (b, a + b)
  end.

Definition fib (n : nat) : Z := fst (fib_pair n).

(** * Properties *)

(** ** The tokenizer *)

Section Tokenizer.

Lemma normalised_char (c : ascii) :
  let c' := alnum_or_blank (lower_char c) in
  isspace c' = false -> token_char c'.
Proof.
  destruct c as [[] [] [] [] [] [] [] []]; vm_compute;
    intros H; try discriminate H; repeat split; intros; congruence.
Qed.

Lemma chars_append (s t : string) : chars (s ++ t) = (chars s ++ chars t)%list.
Proof.
  induction s as [|c s IH]; simpl; [reflexivity|].
  unfold chars in *. simpl. now rewrite IH.
Qed.

Lemma In_flush (cur tok : string) : In tok (flush cur) -> tok = cur.
Proof.
  destruct cur; simpl; intros H; [contradiction|].
  destruct H as [H|[]]; now symmetry.
Qed.

(** Every word of a split is made of non-separator characters of the
    input. *)
Lemma split_from_chars (P : ascii -> Prop) (s : string) :
  forall cur,
    Forall P (chars cur) ->
    (forall c, In c (chars s) -> isspace c = false -> P c) ->
    Forall (fun tok => Forall P (chars tok)) (split_from cur s).
Proof.
  induction s as [|c s IH]; intros cur Hcur Hs; simpl.
  - apply Forall_forall. intros tok Htok.
    apply In_flush in Htok. now subst.
  - destruct (isspace c) eqn:Hc.
    + apply Forall_app. split.
      * apply Forall_forall. intros tok Htok.
        apply In_flush in Htok. now subst.
      * apply IH; [constructor|].
        intros c' Hin. apply Hs. now right.
    + apply IH.
      * rewrite chars_append. apply Forall_app. split; [assumption|].
        constructor; [|constructor]. apply Hs; [now left|assumption].
      * intros c' Hin. apply Hs. now right.
Qed.

Lemma chars_map_str (f : ascii -> ascii) (s : string) :
  chars (map_str f s) = map f (chars s).
Proof.
  induction s as [|c s IH]; [reflexivity|].
  unfold chars in *. simpl. now rewrite IH.
Qed.

Lemma tokenize_chars (text : string) :
  Forall (fun tok => Forall token_char (chars tok)) (tokenize text).
Proof.
  unfold tokenize, split. apply split_from_chars; [constructor|].
  intros c Hin Hsp.
  rewrite chars_map_str in Hin. apply in_map_iff in Hin.
  destruct Hin as [c1 [<- Hin]].
  unfold lower in Hin. rewrite chars_map_str in Hin.
  apply in_map_iff in Hin. destruct Hin as [c0 [<- _]].
  now apply normalised_char.
Qed.

End Tokenizer.

(** For text of the code points 0..255: every character of every token
    returned by [tokenize] is alphanumeric, is not an uppercase letter, is
    neither punctuation nor a symbol nor whitespace, and lies in [a-z0-9]
    when it is ASCII; and [tokenize "Hello, World! 123"] is
    [["hello"; "world"; "123"]]. *)
Theorem tokenize_lowercase_alphanumeric :
  (forall text : string,
      Forall (fun tok => Forall token_char (chars tok)) (tokenize text))
  /\ tokenize "Hello, World! 123" = ["hello"; "world"; "123"].
Proof.
  split; [exact tokenize_chars | reflexivity].
Qed.


(** ** Dicts *)

Section DictFacts.
Context {V : Type}.
Implicit Types (d : dict V) (k : string) (v : V).

Lemma dict_get_In d k v : dict_get k d = Some v -> In (k, v) d.
Proof.
  induction d as [|[k' v'] d IH]; simpl; [discriminate|].
  destruct (String.eqb_spec k k') as [->|Hne].
  - intros [= ->]. now left.
  - intros H. right. now apply IH.
Qed.

Lemma dict_get_None d k : dict_get k d = None <-> ~ In k (keys d).
Proof.
  induction d as [|[k' v'] d IH]; simpl; [tauto|].
  destruct (String.eqb_spec k k') as [->|Hne].
  - split; [discriminate|]. intros H. exfalso. apply H. now left.
  - rewrite IH. split; [|tauto]. intros H [E|E]; [now subst|tauto].
Qed.

Lemma In_keys d k v : In (k, v) d -> In k (keys d).
Proof. intros H. apply (in_map fst) in H. exact H. Qed.

Lemma In_dict_get d k v : NoDup (keys d) -> In (k, v) d -> dict_get k d = Some v.
Proof.
  induction d as [|[k' v'] d IH]; simpl; [contradiction|].
  intros Hnd Hin. apply NoDup_cons_iff in Hnd. destruct Hnd as [Hk Hnd].
  destruct Hin as [[= -> ->]|Hin].
  - now rewrite String.eqb_refl.
  - destruct (String.eqb_spec k k') as [->|Hne]; [|now apply IH].
    exfalso. apply Hk. now apply In_keys with v.
Qed.

Lemma dict_get_set_same d k v : dict_get k (dict_set k v d) = Some v.
Proof.
  induction d as [|[k' v'] d IH]; simpl.
  - now rewrite String.eqb_refl.
  - destruct (String.eqb_spec k k') as [->|Hne]; simpl.
    + now rewrite String.eqb_refl.
    + apply String.eqb_neq in Hne. now rewrite Hne.
Qed.

Lemma dict_get_set_other d k k' v :
  k' <> k -> dict_get k' (dict_set k v d) = dict_get k' d.
Proof.
  intros Hne. induction d as [|[k0 v0] d IH]; simpl.
  - apply String.eqb_neq in Hne. now rewrite Hne.
  - destruct (String.eqb_spec k k0) as [->|Hne0]; simpl.
    + apply String.eqb_neq in Hne. now rewrite Hne.
    + now rewrite IH.
Qed.

Lemma In_keys_set d k k' v :
  In k' (keys (dict_set k v d)) <-> k' = k \/ In k' (keys d).
Proof.
  induction d as [|[k0 v0] d IH]; simpl.
  - intuition.
  - destruct (String.eqb_spec k k0) as [->|Hne0]; simpl.
    + intuition.
    + rewrite IH. intuition.
Qed.

Lemma NoDup_keys_set d k v : NoDup (keys d) -> NoDup (keys (dict_set k v d)).
Proof.
  induction d as [|[k0 v0] d IH]; simpl; intros Hnd.
  - constructor; [tauto|constructor].
  - apply NoDup_cons_iff in Hnd. destruct Hnd as [Hk Hnd].
    destruct (String.eqb_spec k k0) as [->|Hne0]; simpl.
    + now constructor.
    + constructor; [|now apply IH].
      rewrite In_keys_set. intros [E|E]; [now subst|tauto].
Qed.

(** The entries after [d[k] = v]: the new one, and the old ones at other
    keys. *)
Lemma In_dict_set d k v k' v' :
  NoDup (keys d) ->
  In (k', v') (dict_set k v d) ->
  (k' = k /\ v' = v) \/ (k' <> k /\ In (k', v') d).
Proof.
  intros Hnd Hin.
  assert (Hnd' := NoDup_keys_set d k v Hnd).
  apply (In_dict_get _ _ _ Hnd') in Hin.
  destruct (string_dec k' k) as [->|Hne].
  - rewrite dict_get_set_same in Hin. left. now injection Hin as <-.
  - rewrite dict_get_set_other in Hin by assumption.
    right. split; [assumption|]. now apply dict_get_In.
Qed.

Lemma dict_set_not_nil d k v : dict_set k v d <> [].
Proof.
  destruct d as [|[k0 v0] d]; simpl; [discriminate|].
  destruct (String.eqb k k0); discriminate.
Qed.

End DictFacts.

Lemma fold_left_invariant {A S : Type} (I : S -> Prop) (f : S -> A -> S)
  (l : list A) :
  (forall s x, In x l -> I s -> I (f s x)) ->
  forall s, I s -> I (fold_left f l s).
Proof.
  induction l as [|x l IH]; simpl; intros Hstep s Hs; [assumption|].
  apply IH.
  - intros s' y Hy. apply Hstep. now right.
  - apply Hstep; [now left|assumption].
Qed.

(** ** Counter *)

Section CounterFacts.

Lemma Counter_snoc (xs : list string) (x : string) :
  Counter (xs ++ [x]) = dict_add x 1 (Counter xs).
Proof. unfold Counter. now rewrite fold_left_app. Qed.

Lemma Counter_NoDup (xs : list string) : NoDup (keys (Counter xs)).
Proof.
  unfold Counter. apply fold_left_invariant with (I := fun c => NoDup (keys c)).
  - intros c x _ Hc. now apply NoDup_keys_set.
  - constructor.
Qed.

Lemma occurrences_snoc (xs : list string) (x y : string) :
  occurrences y (xs ++ [x]) =
  occurrences y xs + (if string_dec x y then 1 else 0).
Proof.
  unfold occurrences. rewrite count_occ_app. simpl.
  destruct (string_dec x y); lia.
Qed.

Lemma occurrences_nonneg (x : string) (xs : list string) : 0 <= occurrences x xs.
Proof. unfold occurrences. lia. Qed.

(** [Counter(xs).get(y, 0)] is the number of occurrences of [y], and the keys
    are the elements that occur. *)
Lemma Counter_get (xs : list string) (y : string) :
  dict_get y (Counter xs) =
  if 0 <? occurrences y xs then Some (occurrences y xs) else None.
Proof.
  induction xs as [|x xs IH] using rev_ind; [reflexivity|].
  rewrite Counter_snoc, occurrences_snoc. unfold dict_add, dict_get_or.
  pose proof (occurrences_nonneg y xs) as Hnn.
  destruct (string_dec x y) as [->|Hne].
  - rewrite dict_get_set_same, IH.
    destruct (0 <? occurrences y xs) eqn:E.
    + destruct (0 <? occurrences y xs + 1) eqn:E'; [reflexivity|lia].
    + apply Z.ltb_ge in E. replace (occurrences y xs) with 0 by lia.
      reflexivity.
  - rewrite dict_get_set_other by congruence.
    rewrite IH. now rewrite Z.add_0_r.
Qed.

Lemma Counter_items (xs : list string) (y : string) (n : Z) :
  In (y, n) (Counter xs) -> n = occurrences y xs /\ 1 <= n.
Proof.
  intros Hin. apply In_dict_get in Hin; [|apply Counter_NoDup].
  rewrite Counter_get in Hin.
  destruct (0 <? occurrences y xs) eqn:E; [|discriminate].
  injection Hin as <-. apply Z.ltb_lt in E. lia.
Qed.

End CounterFacts.

(** ** build_index *)

Section BuildIndex.

Lemma index_inv_nil (docs : list Document) : index_inv docs [].
Proof. split; [constructor|]. intros term inner []. Qed.

Lemma index_put_inv (docs : list Document) (index : InvertedIndex)
  (doc : Document) (word : string) (count : Z) :
  index_inv docs index ->
  In doc docs ->
  count = occurrences word (doc_tokens doc) ->
  1 <= count ->
  index_inv docs (index_put word (id doc) count index).
Proof.
  intros [Hnd Hall] Hdoc Hcount Hpos. unfold index_put. split.
  - now apply NoDup_keys_set.
  - intros term inner Hin.
    apply In_dict_set in Hin; [|assumption].
    destruct Hin as [[-> ->]|[Hne Hin]]; [|now apply Hall].
    assert (Hold : NoDup (keys (dict_get_or [] word index))
                   /\ forall doc_id f,
                       In (doc_id, f) (dict_get_or [] word index) ->
                       entry_counts docs word doc_id f).
    { unfold dict_get_or.
      match goal with
      | |- context [match ?g with _ => _ end] => destruct g as [old|] eqn:E
      end.
      - apply dict_get_In in E. destruct (Hall _ _ E) as (_ & H1 & H2).
        split; assumption.
      - split; [constructor|]. intros doc_id f []. }
    destruct Hold as [Hold1 Hold2].
    split; [apply dict_set_not_nil|].
    split; [now apply NoDup_keys_set|].
    intros doc_id f Hin.
    apply In_dict_set in Hin; [|assumption].
    destruct Hin as [[-> ->]|[_ Hin]]; [|now apply Hold2].
    exists doc. repeat split; assumption.
Qed.

Lemma index_document_inv (docs : list Document) (index : InvertedIndex)
  (doc : Document) :
  index_inv docs index -> In doc docs ->
  index_inv docs (index_document index doc).
Proof.
  intros Hinv Hdoc. unfold index_document.
  apply fold_left_invariant with (I := index_inv docs); [|assumption].
  intros idx [word count] Hitem Hidx. unfold index_count.
  apply Counter_items in Hitem. destruct Hitem as [Hc Hpos].
  destruct (0 <? count) eqn:E; [|assumption].
  now apply index_put_inv.
Qed.

Lemma build_index_inv (documents : list Document) :
  index_inv documents (build_index documents).
Proof.
  unfold build_index.
  apply fold_left_invariant with (I := index_inv documents).
  - intros idx doc Hdoc Hidx. now apply index_document_inv.
  - apply index_inv_nil.
Qed.

Lemma build_index_frequencies_positive (documents : list Document) :
  frequencies_positive (build_index documents).
Proof.
  intros term inner doc_id f Hin Hf.
  destruct (build_index_inv documents) as [_ Hall].
  destruct (Hall _ _ Hin) as (_ & _ & Hentries).
  destruct (Hentries _ _ Hf) as (doc & _ & _ & _ & Hpos). exact Hpos.
Qed.

Lemma NoDup_map_injective {A B : Type} (f : A -> B) (l : list A) (a b : A) :
  NoDup (map f l) -> In a l -> In b l -> f a = f b -> a = b.
Proof.
  induction l as [|x l IH]; simpl; [contradiction|].
  intros Hnd Ha Hb Hab. apply NoDup_cons_iff in Hnd. destruct Hnd as [Hx Hnd].
  destruct Ha as [->|Ha], Hb as [->|Hb]; try reflexivity.
  - exfalso. apply Hx. rewrite Hab. now apply in_map.
  - exfalso. apply Hx. rewrite <- Hab. now apply in_map.
  - now apply IH.
Qed.

End BuildIndex.

(** C4. For documents with pairwise distinct ids, every entry
    [index[term][doc_id] = f] stored by [build_index] belongs to exactly one
    document with that id, and [f] is the number of occurrences of [term] in
    [tokenize (title + " " + body)] of that document; so [f >= 1], and no
    inner mapping is empty. *)
Theorem build_index_frequencies (documents : list Document)
  (term : string) (inner : dict Z) :
  NoDup (map id documents) ->
  In (term, inner) (build_index documents) ->
  inner <> []
  /\ forall doc_id f,
      In (doc_id, f) inner ->
      1 <= f
      /\ exists doc,
          In doc documents /\ id doc = doc_id
          /\ (forall doc', In doc' documents -> id doc' = doc_id -> doc' = doc)
          /\ f = Z.of_nat
                   (count_occ string_dec
                      (tokenize (title doc ++ " " ++ body doc)%string) term).
Proof.
  intros Hids Hin.
  destruct (build_index_inv documents) as [_ Hall].
  destruct (Hall _ _ Hin) as (Hne & _ & Hentries).
  split; [assumption|].
  intros doc_id f Hf.
  destruct (Hentries _ _ Hf) as (doc & Hdoc & Hid & Hcount & Hpos).
  split; [assumption|].
  exists doc. repeat split; try assumption.
  intros doc' Hdoc' Hid'.
  apply (NoDup_map_injective id documents); congruence.
Qed.

Lemma build_index_frequencies_witness :
  exists inner,
    In ("retrieval", inner) (build_index sample_docs)
    /\ inner <> []
    /\ forall doc_id f, In (doc_id, f) inner -> 1 <= f.
Proof.
  exists [("doc1", 1); ("doc2", 1)].
  assert (Hin : In ("retrieval", [("doc1", 1); ("doc2", 1)])
                  (build_index sample_docs)).
  { vm_compute. right. right. left. reflexivity. }
  assert (Hids : NoDup (map id sample_docs)).
  { repeat constructor; simpl; intros H;
      repeat (destruct H as [H|H]; [discriminate H|]); exact H. }
  split; [exact Hin|].
  destruct (build_index_frequencies sample_docs _ _ Hids Hin) as [Hne Hall].
  split; [exact Hne|].
  intros doc_id f Hf. exact (proj1 (Hall doc_id f Hf)).
Defined.

(** ** The order of sort keys *)

Section KeyOrder.

Lemma ascii_compare_refl (a : ascii) : Ascii.compare a a = Eq.
Proof. unfold Ascii.compare. apply N.compare_refl. Qed.

Lemma ascii_compare_lt_trans (a b c : ascii) :
  Ascii.compare a b = Lt -> Ascii.compare b c = Lt -> Ascii.compare a c = Lt.
Proof.
  unfold Ascii.compare. rewrite !N.compare_lt_iff. apply N.lt_trans.
Qed.

Lemma string_compare_refl (s : string) : String.compare s s = Eq.
Proof.
  induction s as [|c s IH]; simpl; [reflexivity|].
  now rewrite ascii_compare_refl.
Qed.

Lemma string_compare_lt_trans (s t u : string) :
  String.compare s t = Lt -> String.compare t u = Lt ->
  String.compare s u = Lt.
Proof.
  revert t u.
  induction s as [|a s IH]; intros [|b t] [|c u]; simpl;
    try discriminate; try reflexivity.
  destruct (Ascii.compare a b) eqn:Eab; try discriminate;
    destruct (Ascii.compare b c) eqn:Ebc; try discriminate; intros H1 H2.
  - apply Ascii.compare_eq_iff in Eab, Ebc. subst.
    rewrite ascii_compare_refl. now apply IH with t.
  - apply Ascii.compare_eq_iff in Eab. subst. now rewrite Ebc.
  - apply Ascii.compare_eq_iff in Ebc. subst. now rewrite Eab.
  - now rewrite (ascii_compare_lt_trans a b c).
Qed.

Lemma string_ltb_lt (s t : string) :
  String.ltb s t = true <-> String.compare s t = Lt.
Proof.
  unfold String.ltb. destruct (String.compare s t); split; congruence.
Qed.

Lemma string_ltb_irrefl (s : string) : String.ltb s s = false.
Proof. unfold String.ltb. now rewrite string_compare_refl. Qed.

Lemma string_ltb_trans (s t u : string) :
  String.ltb s t = true -> String.ltb t u = true -> String.ltb s u = true.
Proof. rewrite !string_ltb_lt. apply string_compare_lt_trans. Qed.

Lemma string_ltb_asym (s t : string) :
  String.ltb s t = true -> String.ltb t s = false.
Proof.
  intros H. destruct (String.ltb t s) eqn:E; [|reflexivity].
  pose proof (string_ltb_trans _ _ _ H E) as Hss.
  now rewrite string_ltb_irrefl in Hss.
Qed.

Lemma string_ltb_total (s t : string) :
  String.ltb s t = false -> String.ltb t s = false -> s = t.
Proof.
  unfold String.ltb. rewrite (String.compare_antisym t s).
  destruct (String.compare s t) eqn:E; simpl; try discriminate.
  intros _ _. now apply String.compare_eq_iff.
Qed.

Lemma key_lt_spec (a b : Z * string) :
  key_lt a b = true <->
  fst a < fst b \/ (fst a = fst b /\ String.ltb (snd a) (snd b) = true).
Proof.
  unfold key_lt.
  rewrite orb_true_iff, andb_true_iff, Z.ltb_lt, Z.eqb_eq. tauto.
Qed.

Lemma key_lt_irrefl (a : Z * string) : key_lt a a = false.
Proof.
  destruct (key_lt a a) eqn:E; [|reflexivity].
  apply key_lt_spec in E. destruct E as [E|[_ E]]; [lia|].
  now rewrite string_ltb_irrefl in E.
Qed.

Lemma key_lt_trans (a b c : Z * string) :
  key_lt a b = true -> key_lt b c = true -> key_lt a c = true.
Proof.
  rewrite !key_lt_spec. intros [H1|[H1 H1']] [H2|[H2 H2']].
  - left. lia.
  - left. lia.
  - left. lia.
  - right. split; [lia|]. now apply string_ltb_trans with (snd b).
Qed.

Lemma key_lt_total (a b : Z * string) :
  key_lt a b = false -> key_lt b a = false -> a = b.
Proof.
  intros Hab Hba.
  destruct a as [x s], b as [y t].
  destruct (Z.lt_trichotomy x y) as [H|[H|H]].
  - assert (key_lt (x, s) (y, t) = true) by (apply key_lt_spec; now left).
    congruence.
  - subst y. f_equal. apply string_ltb_total.
    + destruct (String.ltb s t) eqn:E; [|reflexivity].
      assert (key_lt (x, s) (x, t) = true) by (apply key_lt_spec; now right).
      congruence.
    + destruct (String.ltb t s) eqn:E; [|reflexivity].
      assert (key_lt (x, t) (x, s) = true) by (apply key_lt_spec; now right).
      congruence.
  - assert (key_lt (y, t) (x, s) = true) by (apply key_lt_spec; now left).
    congruence.
Qed.

Lemma key_lt_asym (a b : Z * string) :
  key_lt a b = true -> key_lt b a = false.
Proof.
  intros H. destruct (key_lt b a) eqn:E; [|reflexivity].
  pose proof (key_lt_trans _ _ _ H E) as Haa.
  now rewrite key_lt_irrefl in Haa.
Qed.

Lemma ranks_before_key (a b : SearchResult) :
  ranks_before a b <-> key_lt (sort_key a) (sort_key b) = true.
Proof.
  unfold ranks_before. rewrite key_lt_spec. unfold sort_key. simpl.
  split; intros [H|[H H']]; (left; lia) || (right; split; [lia|assumption]).
Qed.

Lemma not_after_trans (a b c : SearchResult) :
  not_after a b -> not_after b c -> not_after a c.
Proof.
  unfold not_after. intros Hab Hbc.
  destruct (key_lt (sort_key c) (sort_key a)) eqn:Hca; [|reflexivity].
  destruct (key_lt (sort_key a) (sort_key b)) eqn:Hab'.
  - pose proof (key_lt_trans _ _ _ Hca Hab'). congruence.
  - pose proof (key_lt_total _ _ Hab' Hab) as E. rewrite <- E in Hbc.
    congruence.
Qed.

End KeyOrder.

(** ** The sort *)

Section SortFacts.

Lemma insert_result_In (x y : SearchResult) (l : list SearchResult) :
  In y (insert_result x l) <-> y = x \/ In y l.
Proof.
  induction l as [|z l IH]; simpl.
  - intuition.
  - destruct (key_lt (sort_key z) (sort_key x)); simpl.
    + rewrite IH. intuition.
    + intuition.
Qed.

Lemma sort_results_In (y : SearchResult) (l : list SearchResult) :
  In y (sort_results l) <-> In y l.
Proof.
  induction l as [|x l IH]; simpl; [tauto|].
  rewrite insert_result_In, IH. intuition.
Qed.

Lemma insert_result_ids (x : SearchResult) (l : list SearchResult) :
  NoDup (map doc_id (x :: l)) -> NoDup (map doc_id (insert_result x l)).
Proof.
  induction l as [|z l IH]; simpl; intros Hnd; [assumption|].
  destruct (key_lt (sort_key z) (sort_key x)); simpl; [|assumption].
  apply NoDup_cons_iff in Hnd. destruct Hnd as [Hx Hnd].
  apply NoDup_cons_iff in Hnd. destruct Hnd as [Hz Hnd].
  simpl in Hx. constructor.
  - rewrite in_map_iff. intros (y & Hy & Hin).
    apply insert_result_In in Hin. destruct Hin as [->|Hin].
    + apply Hx. now left.
    + apply Hz. rewrite <- Hy. now apply in_map.
  - apply IH. simpl. constructor; [tauto|assumption].
Qed.

Lemma sort_results_ids (l : list SearchResult) :
  NoDup (map doc_id l) -> NoDup (map doc_id (sort_results l)).
Proof.
  induction l as [|x l IH]; simpl; intros Hnd; [constructor|].
  apply insert_result_ids. simpl.
  apply NoDup_cons_iff in Hnd. destruct Hnd as [Hx Hnd].
  constructor; [|now apply IH].
  rewrite in_map_iff. intros (y & Hy & Hin).
  rewrite sort_results_In in Hin. apply Hx. rewrite <- Hy. now apply in_map.
Qed.

Lemma insert_result_sorted (x : SearchResult) (l : list SearchResult) :
  StronglySorted not_after l -> StronglySorted not_after (insert_result x l).
Proof.
  induction l as [|z l IH]; simpl; intros Hs.
  - constructor; constructor.
  - apply StronglySorted_inv in Hs. destruct Hs as [Hs Hz].
    destruct (key_lt (sort_key z) (sort_key x)) eqn:E.
    + constructor; [now apply IH|].
      apply Forall_forall. intros y Hy. apply insert_result_In in Hy.
      destruct Hy as [->|Hy].
      * unfold not_after. now apply key_lt_asym.
      * rewrite Forall_forall in Hz. now apply Hz.
    + constructor; [now constructor|].
      constructor; [exact E|].
      apply Forall_forall. intros y Hy. rewrite Forall_forall in Hz.
      apply not_after_trans with z; [exact E|now apply Hz].
Qed.

Lemma sort_results_sorted (l : list SearchResult) :
  StronglySorted not_after (sort_results l).
Proof.
  induction l as [|x l IH]; simpl; [constructor|].
  now apply insert_result_sorted.
Qed.

(** With distinct ids no two keys are equal, and the order is strict. *)
Lemma sorted_strict (l : list SearchResult) :
  NoDup (map doc_id l) ->
  StronglySorted not_after l -> StronglySorted ranks_before l.
Proof.
  induction l as [|x l IH]; simpl; intros Hnd Hs; [constructor|].
  apply NoDup_cons_iff in Hnd. destruct Hnd as [Hx Hnd].
  apply StronglySorted_inv in Hs. destruct Hs as [Hs Hall].
  constructor; [now apply IH|].
  apply Forall_forall. intros y Hy. rewrite Forall_forall in Hall.
  apply ranks_before_key.
  destruct (key_lt (sort_key x) (sort_key y)) eqn:E; [reflexivity|].
  exfalso. apply Hx.
  pose proof (key_lt_total _ _ E (Hall y Hy)) as Hk.
  unfold sort_key in Hk. injection Hk as _ Hid. rewrite Hid.
  now apply in_map.
Qed.

Lemma firstn_sorted {A : Type} (R : A -> A -> Prop) (n : nat) (l : list A) :
  StronglySorted R l -> StronglySorted R (firstn n l).
Proof.
  revert n. induction l as [|x l IH]; intros [|n] Hs; simpl;
    try constructor.
  - apply IH. now apply StronglySorted_inv in Hs.
  - apply StronglySorted_inv in Hs. destruct Hs as [_ Hx].
    rewrite Forall_forall in *. intros y Hy. apply Hx.
    rewrite <- (firstn_skipn n l). apply in_or_app. now left.
Qed.

Lemma firstn_NoDup {A : Type} (n : nat) (l : list A) :
  NoDup l -> NoDup (firstn n l).
Proof.
  intros H. rewrite <- (firstn_skipn n l) in H.
  now apply NoDup_app_remove_r in H.
Qed.

Lemma slice_to_firstn {A : Type} (l : list A) (n : Z) :
  exists m : nat, slice_to l n = firstn m l.
Proof. unfold slice_to. destruct (n <? 0); eexists; reflexivity. Qed.

Lemma slice_to_length {A : Type} (l : list A) (n : Z) :
  0 <= n -> Z.of_nat (List.length (slice_to l n)) <= n.
Proof.
  intros Hn. unfold slice_to.
  destruct (n <? 0) eqn:E; [apply Z.ltb_lt in E; lia|].
  pose proof (firstn_le_length (Z.to_nat n) l). lia.
Qed.

End SortFacts.

(** ** Loops that may raise *)

Section Loops.
Context {A S : Type}.

Lemma for_each_invariant (I : S -> Prop) (body : S -> A -> result S)
  (xs : list A) :
  (forall s x s', In x xs -> I s -> body s x = Ok s' -> I s') ->
  forall s s', I s -> for_each body xs s = Ok s' -> I s'.
Proof.
  induction xs as [|x xs IH]; simpl; intros Hstep s s' Hs Hrun.
  - now injection Hrun as <-.
  - destruct (body s x) as [s1|e] eqn:E; simpl in Hrun; [|discriminate].
    apply IH with s1; try assumption.
    + intros s2 y s3 Hy. apply Hstep. now right.
    + apply Hstep with s x; [now left|assumption|assumption].
Qed.

Lemma for_each_returns (body : S -> A -> result S) (xs : list A) :
  (forall s x, In x xs -> exists s', body s x = Ok s') ->
  forall s, exists s', for_each body xs s = Ok s'.
Proof.
  induction xs as [|x xs IH]; simpl; intros Hstep s.
  - now exists s.
  - destruct (Hstep s x (or_introl eq_refl)) as [s1 ->]. simpl.
    apply IH. intros s2 y Hy. apply Hstep. now right.
Qed.

(** A loop over [S] and a loop over [T] that keep [R] in step. *)
Lemma for_each_related {T : Type} (R : S -> T -> Prop)
  (body1 : S -> A -> result S) (body2 : T -> A -> result T) (xs : list A) :
  (forall s t x s', R s t -> body1 s x = Ok s' ->
                    exists t', body2 t x = Ok t' /\ R s' t') ->
  forall s t s', R s t -> for_each body1 xs s = Ok s' ->
                 exists t', for_each body2 xs t = Ok t' /\ R s' t'.
Proof.
  intros Hstep. induction xs as [|x xs IH]; simpl; intros s t s' HR Hrun.
  - injection Hrun as <-. now exists t.
  - destruct (body1 s x) as [s1|e] eqn:E; simpl in Hrun; [|discriminate].
    destruct (Hstep _ _ _ _ HR E) as (t1 & -> & HR1). simpl.
    now apply IH with s1.
Qed.

End Loops.

(** ** The scoring loops of search *)

Section Scoring.

Lemma score_posting_eq (id2doc : dict Document) (ual : option Z)
  (scores : dict Z) (doc_id : string) (f : Z) :
  score_posting id2doc ual scores (doc_id, f) =
  doc <- subscript id2doc doc_id ;;
  Ok (if passes doc ual then dict_add doc_id f scores else scores).
Proof.
  unfold score_posting, passes.
  destruct (subscript id2doc doc_id) as [doc|e]; simpl; [|reflexivity].
  destruct (negb (truthy (access_level doc)) || negb (truthy_opt ual));
    simpl; [reflexivity|].
  destruct ual as [level|]; [|reflexivity].
  now destruct (access_level doc <=? level).
Qed.

Lemma subscript_Ok {V : Type} (d : dict V) (k : string) (v : V) :
  subscript d k = Ok v <-> dict_get k d = Some v.
Proof.
  unfold subscript. destruct (dict_get k d); split; congruence.
Qed.

Variable index : InvertedIndex.
Variable id2doc : dict Document.
Variable ual : option Z.

(** Whatever holds at the start and is kept by every [scores[doc_id] += f]
    of a reached posting of a permitted document holds at the end. *)
Lemma scoring_invariant (I : dict Z -> Prop) (tokens : list string) :
  (forall scores doc_id f doc,
      reached index tokens doc_id f ->
      dict_get doc_id id2doc = Some doc -> passes doc ual = true ->
      I scores -> I (dict_add doc_id f scores)) ->
  forall s s',
    I s -> for_each (score_token index id2doc ual) tokens s = Ok s' -> I s'.
Proof.
  intros Hadd. apply for_each_invariant.
  intros s token s' Htok Hs. unfold score_token.
  destruct (dict_get token index) as [postings|] eqn:Eidx.
  - revert s s' Hs. apply for_each_invariant.
    intros s1 [doc_id f] s2 Hitem Hs1. rewrite score_posting_eq.
    destruct (subscript id2doc doc_id) as [doc|e] eqn:Edoc; simpl;
      [|discriminate].
    apply subscript_Ok in Edoc. intros [= <-].
    destruct (passes doc ual) eqn:Ep; [|assumption].
    apply Hadd with doc; try assumption.
    now exists token, postings.
  - now intros [= <-].
Qed.

Lemma scores_NoDup (tokens : list string) (s : dict Z) :
  for_each (score_token index id2doc ual) tokens [] = Ok s ->
  NoDup (keys s).
Proof.
  intros Hrun.
  refine (scoring_invariant (fun s => NoDup (keys s)) tokens _ [] s _ Hrun).
  - intros scores doc_id f doc _ _ _ Hnd. now apply NoDup_keys_set.
  - constructor.
Qed.

(** Every key of [scores] is a permitted document reached by the query. *)
Lemma scores_provenance (tokens : list string) (s : dict Z) :
  for_each (score_token index id2doc ual) tokens [] = Ok s ->
  forall doc_id, In doc_id (keys s) ->
    (exists doc, dict_get doc_id id2doc = Some doc /\ passes doc ual = true)
    /\ exists f, reached index tokens doc_id f.
Proof.
  intros Hrun.
  refine (scoring_invariant
            (fun s => forall doc_id, In doc_id (keys s) ->
               (exists doc, dict_get doc_id id2doc = Some doc
                            /\ passes doc ual = true)
               /\ exists f, reached index tokens doc_id f)
            tokens _ [] s _ Hrun).
  - intros scores doc_id f doc Hreach Hdoc Hpass Hs k Hk.
    unfold dict_add in Hk. apply In_keys_set in Hk.
    destruct Hk as [->|Hk]; [|now apply Hs].
    split; [now exists doc|now exists f].
  - intros k [].
Qed.

(** With every stored frequency at least 1, every score is at least 1. *)
Lemma scores_positive (tokens : list string) (s : dict Z) :
  frequencies_positive index ->
  for_each (score_token index id2doc ual) tokens [] = Ok s ->
  forall doc_id n, In (doc_id, n) s -> 1 <= n.
Proof.
  intros Hfreq Hrun.
  enough (H : NoDup (keys s) /\ forall doc_id n, In (doc_id, n) s -> 1 <= n)
    by apply H.
  refine (scoring_invariant
            (fun s => NoDup (keys s)
                      /\ forall doc_id n, In (doc_id, n) s -> 1 <= n)
            tokens _ [] s _ Hrun).
  - intros scores doc_id f doc (token & postings & _ & Hget & Hin) _ _
      [Hnd Hpos].
    split; [now apply NoDup_keys_set|].
    intros k n Hk. unfold dict_add in Hk.
    apply In_dict_set in Hk; [|assumption].
    destruct Hk as [[-> ->]|[_ Hk]]; [|now apply Hpos with k].
    assert (1 <= f) by (apply dict_get_In in Hget; eauto).
    unfold dict_get_or. destruct (dict_get doc_id scores) as [old|] eqn:E.
    + apply dict_get_In in E. apply Hpos in E. lia.
    + lia.
  - split; [constructor|]. intros k n [].
Qed.

End Scoring.

Section Id2doc.

Lemma id2doc_keys (documents : list Document) (k : string) :
  In k (keys (id2doc_of documents)) <-> In k (map id documents).
Proof.
  unfold id2doc_of.
  enough (H : forall m : dict Document,
             In k (keys (fold_left (fun m doc => dict_set (id doc) doc m)
                           documents m))
             <-> In k (keys m) \/ In k (map id documents)).
  { rewrite H. simpl. tauto. }
  induction documents as [|doc documents IH]; intros m; simpl; [tauto|].
  rewrite IH, In_keys_set. intuition.
Qed.

Lemma id2doc_get (documents : list Document) (k : string) :
  In k (map id documents) ->
  exists doc, dict_get k (id2doc_of documents) = Some doc.
Proof.
  intros H. apply id2doc_keys in H.
  destruct (dict_get k (id2doc_of documents)) as [doc|] eqn:E.
  - now exists doc.
  - apply dict_get_None in E. contradiction.
Qed.

End Id2doc.

Lemma map_to_result_ids (scores : dict Z) :
  map doc_id (map to_result scores) = keys scores.
Proof. unfold keys. rewrite map_map. reflexivity. Qed.

Lemma In_to_result (scores : dict Z) (r : SearchResult) :
  In r (map to_result scores) <-> In (doc_id r, score r) scores.
Proof.
  rewrite in_map_iff. split.
  - intros ([k n] & <- & H). exact H.
  - intros H. exists (doc_id r, score r). split; [|assumption].
    now destruct r.
Qed.

(** The shape of a successful [search]. *)
Lemma search_Ok (index : InvertedIndex) (documents : list Document)
  (query : string) (max_results : Z) (ual : option Z)
  (r : list SearchResult) :
  search index documents query max_results ual = Ok r ->
  exists scores,
    for_each (score_token index (id2doc_of documents) ual)
      (tokenize query) [] = Ok scores
    /\ r = slice_to (sort_results (map to_result scores)) max_results.
Proof.
  unfold search, ranked.
  destruct (for_each _ _ _) as [scores|e]; simpl; [|discriminate].
  intros [= <-]. now exists scores.
Qed.

Lemma In_slice_to {A : Type} (x : A) (l : list A) (n : Z) :
  In x (slice_to l n) -> In x l.
Proof.
  destruct (slice_to_firstn l n) as [m ->]. intros H.
  rewrite <- (firstn_skipn m l). apply in_or_app. now left.
Qed.

(** ** search *)

Lemma search_ids_NoDup (index : InvertedIndex)
  (documents : list Document) (query : string) (max_results : Z)
  (ual : option Z) (r : list SearchResult) :
  search index documents query max_results ual = Ok r ->
  NoDup (map doc_id r).
Proof.
  intros H. apply search_Ok in H. destruct H as (scores & Hrun & ->).
  destruct (slice_to_firstn (sort_results (map to_result scores)) max_results)
    as [m ->].
  rewrite <- firstn_map. apply firstn_NoDup, sort_results_ids.
  rewrite map_to_result_ids. now apply scores_NoDup in Hrun.
Qed.

(** C10. No [doc_id] occurs twice in the list returned by [search]. *)
Theorem search_distinct_doc_ids (index : InvertedIndex)
  (documents : list Document) (query : string) (max_results : Z)
  (user_access_level : option Z) (r : list SearchResult) :
  search index documents query max_results user_access_level = Ok r ->
  NoDup (map doc_id r).
Proof. apply search_ids_NoDup. Qed.

Lemma search_distinct_doc_ids_witness :
  NoDup (map doc_id
           [mkSearchResult "doc1" 2; mkSearchResult "doc2" 1]).
Proof.
  apply (search_distinct_doc_ids (build_index sample_docs) sample_docs
           "retrieval rag" 5 None).
  vm_compute. reflexivity.
Defined.

(** C5, as the code has it. The list returned by [search] is ordered by
    score, highest first, and by ascending [doc_id] among equal scores; when
    [max_results] is not negative, it has at most [max_results] entries. *)
Theorem search_sorted_and_bounded (index : InvertedIndex)
  (documents : list Document) (query : string) (max_results : Z)
  (user_access_level : option Z) (r : list SearchResult) :
  search index documents query max_results user_access_level = Ok r ->
  StronglySorted ranks_before r
  /\ (0 <= max_results -> Z.of_nat (List.length r) <= max_results).
Proof.
  intros H. pose proof (search_ids_NoDup _ _ _ _ _ _ H) as Hnd.
  apply search_Ok in H. destruct H as (scores & Hrun & ->). split.
  - apply sorted_strict; [assumption|].
    destruct (slice_to_firstn (sort_results (map to_result scores))
                max_results) as [m ->].
    apply firstn_sorted, sort_results_sorted.
  - apply slice_to_length.
Qed.

Lemma search_sorted_and_bounded_witness :
  StronglySorted ranks_before
    [mkSearchResult "doc1" 2; mkSearchResult "doc2" 1]
  /\ (0 <= 5 -> Z.of_nat 2 <= 5).
Proof.
  apply (search_sorted_and_bounded (build_index sample_docs) sample_docs
           "retrieval rag" 5 None).
  vm_compute. reflexivity.
Defined.

(** C5, as stated, fails: with [max_results = -1] the query of the tests
    returns one result, and 1 exceeds -1. *)
Lemma search_length_exceeds_negative_max_results :
  ~ (forall index documents query max_results user_access_level r,
        search index documents query max_results user_access_level = Ok r ->
        StronglySorted ranks_before r
        /\ Z.of_nat (List.length r) <= max_results).
Proof.
  intros H.
  destruct (H (build_index sample_docs) sample_docs "retrieval rag" (-1) None
              [mkSearchResult "doc1" 2]) as [_ Hlen].
  - vm_compute. reflexivity.
  - simpl in Hlen. lia.
Qed.

(** For an inverted index whose stored frequencies are all at least 1 (as
    in every index that [build_index] returns), every result returned by
    [search] has a score of at least 1, never 0, and its document is listed
    in the index under a token of the query. *)
Theorem search_results_matched (index : InvertedIndex)
  (documents : list Document) (query : string) (max_results : Z)
  (user_access_level : option Z) (r : list SearchResult) :
  frequencies_positive index ->
  search index documents query max_results user_access_level = Ok r ->
  forall res, In res r ->
    1 <= score res
    /\ exists f, reached index (tokenize query) (doc_id res) f.
Proof.
  intros Hfreq H res Hres.
  apply search_Ok in H. destruct H as (scores & Hrun & ->).
  apply In_slice_to in Hres. rewrite sort_results_In in Hres.
  apply In_to_result in Hres. split.
  - now apply (scores_positive _ _ _ _ _ Hfreq Hrun (doc_id res)).
  - apply (scores_provenance _ _ _ _ _ Hrun). now apply In_keys with (score res).
Qed.

Lemma search_results_matched_witness :
  1 <= 2 /\ exists f, reached (build_index sample_docs)
                        (tokenize "retrieval rag") "doc1" f.
Proof.
  assert (Hrun : search (build_index sample_docs) sample_docs
                   "retrieval rag" 5 None
                 = Ok [mkSearchResult "doc1" 2; mkSearchResult "doc2" 1]).
  { vm_compute. reflexivity. }
  exact (search_results_matched _ _ _ _ _ _
           (build_index_frequencies_positive sample_docs) Hrun
           (mkSearchResult "doc1" 2) (or_introl eq_refl)).
Defined.


(** *** Document ids that are missing from [documents] *)

Section KeyErrors.
Variable index : InvertedIndex.
Variable documents : list Document.
Variable ual : option Z.

Lemma for_each_Ok_steps {A S : Type} (body : S -> A -> result S)
  (xs : list A) :
  forall s s', for_each body xs s = Ok s' ->
  forall x, In x xs -> exists s1 s2, body s1 x = Ok s2.
Proof.
  induction xs as [|y xs IH]; simpl; intros s s' Hrun x Hx; [contradiction|].
  destruct (body s y) as [s1|e] eqn:E; simpl in Hrun; [|discriminate].
  destruct Hx as [->|Hx]; [now exists s, s1|].
  now apply IH with s1 s'.
Qed.

Lemma scoring_returns (tokens : list string) :
  (forall doc_id f, reached index tokens doc_id f ->
                    In doc_id (map id documents)) ->
  forall s, exists s',
    for_each (score_token index (id2doc_of documents) ual) tokens s = Ok s'.
Proof.
  intros Hknown. apply for_each_returns.
  intros s token Htok. unfold score_token.
  destruct (dict_get token index) as [postings|] eqn:Eidx; [|now exists s].
  apply for_each_returns.
  intros s1 [doc_id f] Hitem. rewrite score_posting_eq.
  destruct (id2doc_get documents doc_id) as [doc Hdoc].
  { apply Hknown with f. now exists token, postings. }
  apply subscript_Ok in Hdoc. rewrite Hdoc. simpl. eauto.
Qed.

Lemma scoring_Ok_known (tokens : list string) (s s' : dict Z) :
  for_each (score_token index (id2doc_of documents) ual) tokens s = Ok s' ->
  forall doc_id f, reached index tokens doc_id f ->
                   In doc_id (map id documents).
Proof.
  intros Hrun doc_id f (token & postings & Htok & Hget & Hin).
  destruct (for_each_Ok_steps _ _ _ _ Hrun token Htok) as (s1 & s2 & Hstep).
  unfold score_token in Hstep. rewrite Hget in Hstep.
  destruct (for_each_Ok_steps _ _ _ _ Hstep _ Hin) as (s3 & s4 & Hpost).
  rewrite score_posting_eq in Hpost.
  destruct (subscript (id2doc_of documents) doc_id) as [doc|e] eqn:E;
    simpl in Hpost; [|discriminate].
  apply subscript_Ok, dict_get_In, In_keys in E.
  now apply id2doc_keys.
Qed.

End KeyErrors.

(** C2, as the code has it. [search] completes and returns a list exactly
    when every [doc_id] that the index lists under a token of the query is
    the id of a document of [documents]; a missing one raises [KeyError]. *)
Theorem search_returns_iff_ids_known (index : InvertedIndex)
  (documents : list Document) (query : string) (max_results : Z)
  (user_access_level : option Z) :
  (exists r,
      search index documents query max_results user_access_level = Ok r)
  <-> (forall doc_id f,
          reached index (tokenize query) doc_id f ->
          In doc_id (map id documents)).
Proof.
  split.
  - intros [r H]. apply search_Ok in H. destruct H as (scores & Hrun & _).
    now apply scoring_Ok_known with user_access_level [] scores.
  - intros Hknown. unfold search, ranked.
    destruct (scoring_returns index documents user_access_level
                (tokenize query) Hknown []) as [scores ->].
    simpl. eauto.
Qed.

Lemma search_returns_iff_ids_known_witness :
  exists r,
    search (build_index sample_docs) sample_docs "retrieval rag" 5 None = Ok r.
Proof.
  apply (proj2 (search_returns_iff_ids_known (build_index sample_docs)
                  sample_docs "retrieval rag" 5 None)).
  intros doc_id f (token & postings & Htok & Hget & Hin).
  vm_compute in Htok.
  destruct Htok as [<-|[<-|[]]]; vm_compute in Hget; injection Hget as <-;
    simpl in Hin;
    repeat (destruct Hin as [Hin|Hin];
            [injection Hin as <- _; simpl; tauto|]);
    contradiction.
Defined.

(** C2, as stated, fails: with the index of the test documents and an empty
    document list, the lookup [id2doc["doc1"]] raises [KeyError]. *)
Lemma search_raises_on_missing_document :
  search (build_index sample_docs) [] "retrieval rag" 5 None
  = Raise (KeyError "doc1")
  /\ ~ (forall index documents query max_results user_access_level,
           exists r,
             search index documents query max_results user_access_level
             = Ok r).
Proof.
  assert (E : search (build_index sample_docs) [] "retrieval rag" 5 None
              = Raise (KeyError "doc1")) by (vm_compute; reflexivity).
  split; [exact E|].
  intros H.
  destruct (H (build_index sample_docs) [] "retrieval rag" 5 None) as [r Hr].
  rewrite E in Hr. discriminate Hr.
Qed.

(** *** The access level 0 and negative [max_results] *)

(** C1, at the failing input. With [user_access_level = 0] the query of
    the tests returns [doc3], whose [access_level] is 3. *)
Theorem search_level_zero_returns_restricted :
  search (build_index sample_docs) sample_docs "customer customers" 5 (Some 0)
  = Ok [mkSearchResult "doc3" 2]
  /\ option_map access_level (dict_get "doc3" (id2doc_of sample_docs))
     = Some 3.
Proof. split; vm_compute; reflexivity. Qed.

(** For a level above 0 the filter is the one the docstring asks for. *)
Lemma search_respects_positive_level (index : InvertedIndex)
  (documents : list Document) (query : string) (max_results level : Z)
  (r : list SearchResult) :
  0 < level ->
  search index documents query max_results (Some level) = Ok r ->
  forall res, In res r ->
    exists doc,
      dict_get (doc_id res) (id2doc_of documents) = Some doc
      /\ access_level doc <= level.
Proof.
  intros Hlevel H res Hres.
  apply search_Ok in H. destruct H as (scores & Hrun & ->).
  apply In_slice_to in Hres. rewrite sort_results_In in Hres.
  apply In_to_result, In_keys in Hres.
  destruct (scores_provenance _ _ _ _ _ Hrun _ Hres)
    as [(doc & Hdoc & Hpass) _].
  exists doc. split; [assumption|].
  unfold passes, truthy_opt, truthy in Hpass.
  destruct (access_level doc =? 0) eqn:E0; simpl in Hpass.
  - apply Z.eqb_eq in E0. lia.
  - destruct (level =? 0) eqn:EL; simpl in Hpass.
    + apply Z.eqb_eq in EL. lia.
    + now apply Z.leb_le.
Qed.

Lemma search_respects_positive_level_witness :
  exists doc,
    dict_get "doc1" (id2doc_of sample_docs) = Some doc
    /\ access_level doc <= 2.
Proof.
  assert (Hrun : search (build_index sample_docs) sample_docs
                   "retrieval customers" 5 (Some 2)
                 = Ok [mkSearchResult "doc1" 1; mkSearchResult "doc2" 1]).
  { vm_compute. reflexivity. }
  assert (Hlevel : 0 < 2) by lia.
  exact (search_respects_positive_level _ _ _ _ _ _ Hlevel Hrun
           (mkSearchResult "doc1" 1) (or_introl eq_refl)).
Defined.

(** C3, at the failing input. With [max_results = -1] the slice drops the
    last of the two results and returns the first. *)
Theorem search_negative_max_results_nonempty :
  search (build_index sample_docs) sample_docs "retrieval rag" 5 None
  = Ok [mkSearchResult "doc1" 2; mkSearchResult "doc2" 1]
  /\ search (build_index sample_docs) sample_docs "retrieval rag" (-1) None
     = Ok [mkSearchResult "doc1" 2].
Proof. split; vm_compute; reflexivity. Qed.

(** With [max_results = 0] the result is empty. *)
Lemma search_zero_max_results (index : InvertedIndex)
  (documents : list Document) (query : string) (ual : option Z)
  (r : list SearchResult) :
  search index documents query 0 ual = Ok r -> r = [].
Proof.
  intros H. apply search_Ok in H. destruct H as (scores & _ & ->).
  reflexivity.
Qed.

Lemma search_zero_max_results_witness :
  exists r,
    search (build_index sample_docs) sample_docs "retrieval rag" 0 None = Ok r
    /\ r = [].
Proof.
  exists []. split; [vm_compute; reflexivity|].
  apply (search_zero_max_results (build_index sample_docs) sample_docs
           "retrieval rag" None).
  vm_compute. reflexivity.
Defined.

(** ** A restricted search is the filtered unrestricted search *)

Section Restriction.

Lemma dict_get_filter {V : Type} (P : string -> bool) (k : string)
  (d : dict V) :
  P k = true -> dict_get k (filter (on_key P) d) = dict_get k d.
Proof.
  intros Hk. unfold on_key.
  induction d as [|[k' v'] d IH]; simpl; [reflexivity|].
  destruct (String.eqb_spec k k') as [->|Hne].
  - rewrite Hk. simpl. now rewrite String.eqb_refl.
  - destruct (P k'); simpl; [|assumption].
    apply String.eqb_neq in Hne. now rewrite Hne.
Qed.

Lemma filter_dict_set {V : Type} (P : string -> bool) (k : string) (v : V)
  (d : dict V) :
  filter (on_key P) (dict_set k v d) =
  if P k then dict_set k v (filter (on_key P) d) else filter (on_key P) d.
Proof.
  unfold on_key. induction d as [|[k' v'] d IH]; simpl.
  - now destruct (P k).
  - destruct (String.eqb_spec k k') as [->|Hne]; simpl.
    + destruct (P k') eqn:E; simpl; [|reflexivity].
      now rewrite String.eqb_refl.
    + rewrite IH.
      destruct (P k') eqn:E'; destruct (P k) eqn:E; simpl; try reflexivity.
      apply String.eqb_neq in Hne. now rewrite Hne.
Qed.

Lemma filter_dict_add (P : string -> bool) (k : string) (n : Z) (d : dict Z) :
  filter (on_key P) (dict_add k n d) =
  if P k then dict_add k n (filter (on_key P) d) else filter (on_key P) d.
Proof.
  unfold dict_add. rewrite filter_dict_set.
  destruct (P k) eqn:E; [|reflexivity].
  unfold dict_get_or. now rewrite dict_get_filter.
Qed.

Lemma map_to_result_filter (P : string -> bool) (d : dict Z) :
  map to_result (filter (on_key P) d) =
  filter (fun r => P (doc_id r)) (map to_result d).
Proof.
  unfold on_key. induction d as [|[k n] d IH]; simpl; [reflexivity|].
  destruct (P k); simpl; now rewrite IH.
Qed.

Lemma insert_result_first (x : SearchResult) (l : list SearchResult) :
  Forall (not_after x) l -> insert_result x l = x :: l.
Proof.
  destruct l as [|y l]; simpl; [reflexivity|].
  intros H. apply Forall_inv in H. unfold not_after in H. now rewrite H.
Qed.

Lemma filter_insert_result (Q : SearchResult -> bool) (x : SearchResult)
  (l : list SearchResult) :
  StronglySorted not_after l ->
  filter Q (insert_result x l) =
  if Q x then insert_result x (filter Q l) else filter Q l.
Proof.
  induction l as [|y l IH]; simpl; intros Hs.
  - now destruct (Q x).
  - apply StronglySorted_inv in Hs. destruct Hs as [Hs Hy].
    destruct (key_lt (sort_key y) (sort_key x)) eqn:E; simpl.
    + rewrite IH by assumption.
      destruct (Q y) eqn:Ey, (Q x) eqn:Ex; simpl; try reflexivity.
      now rewrite E.
    + destruct (Q x) eqn:Ex; [|reflexivity].
      destruct (Q y) eqn:Ey; simpl.
      * now rewrite E.
      * symmetry. apply insert_result_first.
        apply Forall_forall. intros z Hz. apply filter_In in Hz.
        destruct Hz as [Hz _]. rewrite Forall_forall in Hy.
        apply not_after_trans with y; [exact E|now apply Hy].
Qed.

Lemma sort_results_filter (Q : SearchResult -> bool) (l : list SearchResult) :
  sort_results (filter Q l) = filter Q (sort_results l).
Proof.
  induction l as [|x l IH]; simpl; [reflexivity|].
  rewrite filter_insert_result by apply sort_results_sorted.
  destruct (Q x); simpl; now rewrite IH.
Qed.

Lemma In_firstn_S {A : Type} (x : A) (l : list A) :
  forall n, In x (firstn n l) -> In x (firstn (S n) l).
Proof.
  induction l as [|y l IH]; intros [|n]; simpl; try contradiction.
  intros [->|H]; [now left|right]. now apply IH.
Qed.

(** Dropping other entries never pushes an entry out of the first [n]. *)
Lemma In_firstn_filter {A : Type} (Q : A -> bool) (x : A) (l : list A) :
  forall n, In x (firstn n l) -> Q x = true -> In x (firstn n (filter Q l)).
Proof.
  induction l as [|y l IH]; intros [|n]; simpl; try contradiction.
  intros [->|Hin] Hx.
  - rewrite Hx. now left.
  - destruct (Q y).
    + right. now apply IH.
    + apply In_firstn_S. now apply IH.
Qed.

End Restriction.

Section RestrictedSearch.
Variable index : InvertedIndex.
Variable id2doc : dict Document.
Variable ual : option Z.

Lemma passes_None (doc : Document) : passes doc None = true.
Proof. unfold passes. simpl. now rewrite orb_true_r. Qed.

Lemma passes_level_zero (doc : Document) :
  access_level doc = 0 -> passes doc ual = true.
Proof. intros H. unfold passes, truthy. now rewrite H. Qed.

Lemma score_posting_restricted (s s' : dict Z) (item : string * Z) :
  score_posting id2doc None s item = Ok s' ->
  score_posting id2doc ual (restrict id2doc ual s) item = Ok (restrict id2doc ual s').
Proof.
  destruct item as [doc_id f]. rewrite !score_posting_eq.
  destruct (subscript id2doc doc_id) as [doc|e] eqn:E; simpl; [|discriminate].
  rewrite passes_None. intros [= <-]. f_equal.
  unfold restrict. rewrite filter_dict_add. unfold visible.
  apply subscript_Ok in E. now rewrite E.
Qed.

Lemma score_token_restricted (s s' : dict Z) (token : string) :
  score_token index id2doc None s token = Ok s' ->
  score_token index id2doc ual (restrict id2doc ual s) token = Ok (restrict id2doc ual s').
Proof.
  unfold score_token. destruct (dict_get token index) as [postings|].
  - intros H.
    destruct (for_each_related (fun s t => t = restrict id2doc ual s)
                (score_posting id2doc None) (score_posting id2doc ual)
                postings) with (s := s) (t := restrict id2doc ual s) (s' := s')
      as (t' & Ht & ->); try easy.
    intros s1 t1 x s2 -> Hx. exists (restrict id2doc ual s2). split; [|reflexivity].
    now apply score_posting_restricted.
  - now intros [= <-].
Qed.

Lemma scoring_restricted (tokens : list string) (s s' : dict Z) :
  for_each (score_token index id2doc None) tokens s = Ok s' ->
  for_each (score_token index id2doc ual) tokens (restrict id2doc ual s)
  = Ok (restrict id2doc ual s').
Proof.
  intros H.
  destruct (for_each_related (fun s t => t = restrict id2doc ual s)
              (score_token index id2doc None) (score_token index id2doc ual)
              tokens) with (s := s) (t := restrict id2doc ual s) (s' := s')
    as (t' & Ht & ->); try easy.
  intros s1 t1 x s2 -> Hx. exists (restrict id2doc ual s2). split; [|reflexivity].
  now apply score_token_restricted.
Qed.

End RestrictedSearch.

Lemma ranked_restricted (index : InvertedIndex) (documents : list Document)
  (query : string) (ual : option Z) (rN : list SearchResult) :
  ranked index documents query None = Ok rN ->
  ranked index documents query ual
  = Ok (filter (fun r => visible (id2doc_of documents) ual (doc_id r)) rN).
Proof.
  unfold ranked.
  destruct (for_each (score_token index (id2doc_of documents) None)
              (tokenize query) []) as [scores|e] eqn:E; simpl; [|discriminate].
  intros [= <-].
  apply scoring_restricted with (ual := ual) in E. simpl in E. rewrite E.
  simpl. f_equal. unfold restrict.
  now rewrite map_to_result_filter, sort_results_filter.
Qed.

(** C8. A document whose [access_level] is 0 passes the access check of
    [search] for every [user_access_level]: its postings are always added
    to its score; whenever it is in the ranking of the unrestricted search
    it is, with the same score, in the ranking for [user_access_level]; and
    for [max_results >= 0] the same holds of the truncated lists that
    [search] returns. *)
Theorem access_level_zero_never_filtered (index : InvertedIndex)
  (documents : list Document) (query : string) (max_results : Z)
  (user_access_level : option Z) (key : string) (doc : Document) :
  dict_get key (id2doc_of documents) = Some doc ->
  access_level doc = 0 ->
  (forall scores f,
      score_posting (id2doc_of documents) user_access_level scores (key, f)
      = Ok (dict_add key f scores))
  /\ (forall rN,
        ranked index documents query None = Ok rN ->
        exists r,
          ranked index documents query user_access_level = Ok r
          /\ forall s, In (mkSearchResult key s) rN ->
                       In (mkSearchResult key s) r)
  /\ (0 <= max_results ->
      forall rN,
        search index documents query max_results None = Ok rN ->
        exists r,
          search index documents query max_results user_access_level = Ok r
          /\ forall s, In (mkSearchResult key s) rN ->
                       In (mkSearchResult key s) r).
Proof.
  intros Hdoc Hzero.
  assert (Hvis : visible (id2doc_of documents) user_access_level key = true).
  { unfold visible. rewrite Hdoc. now apply passes_level_zero. }
  split; [|split].
  - intros scores f. rewrite score_posting_eq.
    apply subscript_Ok in Hdoc. rewrite Hdoc. simpl.
    now rewrite passes_level_zero.
  - intros rN HN. eexists. split; [apply ranked_restricted; exact HN|].
    intros s Hs. apply filter_In. now split.
  - intros Hmax rN HN. unfold search in *.
    destruct (ranked index documents query None) as [r0|e] eqn:E;
      simpl in HN; [|discriminate].
    injection HN as <-.
    rewrite (ranked_restricted _ _ _ user_access_level _ E). simpl.
    eexists. split; [reflexivity|].
    intros s. unfold slice_to.
    destruct (max_results <? 0) eqn:Eneg; [apply Z.ltb_lt in Eneg; lia|].
    intros Hs. now apply In_firstn_filter.
Qed.

Lemma access_level_zero_never_filtered_witness :
  exists r,
    search (build_index mixed_docs) mixed_docs "rag" 2 (Some 1) = Ok r
    /\ forall s,
        In (mkSearchResult "pub" s)
          [mkSearchResult "sec" 2; mkSearchResult "pub" 1] ->
        In (mkSearchResult "pub" s) r.
Proof.
  refine (proj2 (proj2
            (access_level_zero_never_filtered (build_index mixed_docs)
               mixed_docs "rag" 2 (Some 1) "pub"
               (mkDocument "pub" "Public notes" "rag notes" [] 0)
               _ _)) _ _ _).
  - vm_compute. reflexivity.
  - reflexivity.
  - lia.
  - vm_compute. reflexivity.
Defined.

(** ** precision_at_k *)

Section Precision.

Lemma count_relevant_from (gold : set string) (l : list SearchResult) :
  forall acc,
    fold_left
      (fun count res =>
         if set_mem string_dec (doc_id res) gold then count + 1 else count)
      l acc
    = acc + Z.of_nat (List.length (filter (relevant gold) l)).
Proof.
  induction l as [|x l IH]; intros acc; simpl; [lia|].
  rewrite IH. unfold relevant at 2.
  destruct (set_mem string_dec (doc_id x) gold); simpl; lia.
Qed.

Lemma count_relevant_filter (gold : set string) (l : list SearchResult) :
  count_relevant gold l = Z.of_nat (List.length (filter (relevant gold) l)).
Proof. unfold count_relevant. now rewrite count_relevant_from. Qed.

Lemma firstn_min_length {A : Type} (n : nat) (l : list A) :
  firstn (Nat.min n (List.length l)) l = firstn n l.
Proof.
  destruct (Nat.le_ge_cases n (List.length l)) as [H|H].
  - now rewrite Nat.min_l.
  - rewrite Nat.min_r by assumption.
    now rewrite firstn_all, firstn_all2.
Qed.

Lemma precision_positive_k (gold : set string) (l : list SearchResult)
  (k : Z) :
  0 < k ->
  precision_at_k gold l k = (inject_Z (hits gold l k) / inject_Z k)%Q.
Proof.
  intros Hk. unfold precision_at_k, hits, slice_to.
  destruct (k <=? 0) eqn:E; [apply Z.leb_le in E; lia|].
  destruct (k <? 0) eqn:E'; [apply Z.ltb_lt in E'; lia|].
  now rewrite count_relevant_filter, firstn_min_length.
Qed.

End Precision.

(** C7. [precision_at_k] is 0 for [k <= 0]; is 0 for an empty [retrieved]
    and [k > 0]; and for [k > 0] is the number of entries among the first
    [min k (len retrieved)] whose [doc_id] is in [gold_relevant], divided by
    [k] itself. *)
Theorem precision_at_k_cases (gold_relevant : set string)
  (retrieved : list SearchResult) (k : Z) :
  (k <= 0 -> precision_at_k gold_relevant retrieved k = 0%Q)
  /\ (0 < k -> (precision_at_k gold_relevant [] k == 0)%Q)
  /\ (0 < k ->
      precision_at_k gold_relevant retrieved k
      = (inject_Z (hits gold_relevant retrieved k) / inject_Z k)%Q).
Proof.
  split; [|split].
  - intros Hk. unfold precision_at_k.
    destruct (k <=? 0) eqn:E; [reflexivity|apply Z.leb_gt in E; lia].
  - intros Hk. rewrite precision_positive_k by assumption.
    unfold hits. simpl. rewrite Nat.min_0_r. simpl.
    unfold Qdiv. apply Qmult_0_l.
  - apply precision_positive_k.
Qed.

Lemma precision_at_k_cases_witness :
  precision_at_k ["doc1"; "doc3"] [mkSearchResult "doc1" 1] 5
  = (inject_Z 1 / inject_Z 5)%Q.
Proof.
  apply (proj2 (proj2 (precision_at_k_cases ["doc1"; "doc3"]
                         [mkSearchResult "doc1" 1] 5))).
  lia.
Defined.

(** ** Scenarios of the tests and of the docstrings *)

Section Scenarios.

Lemma flush_nonempty (cur : string) :
  Forall (fun tok => tok <> EmptyString) (flush cur).
Proof.
  destruct cur; simpl; [constructor|].
  constructor; [discriminate|constructor].
Qed.

Lemma split_from_nonempty (s : string) :
  forall cur, Forall (fun tok => tok <> EmptyString) (split_from cur s).
Proof.
  induction s as [|c s IH]; intros cur; simpl; [apply flush_nonempty|].
  destruct (isspace c); [|apply IH].
  apply Forall_app. split; [apply flush_nonempty|apply IH].
Qed.

End Scenarios.

(** No token is the empty string. *)
Theorem tokenize_nonempty_tokens (text : string) :
  Forall (fun tok => tok <> EmptyString) (tokenize text).
Proof. unfold tokenize, split. apply split_from_nonempty. Qed.

(** The examples of the docstrings of [tokenize] and [build_index], and the
    counts that [test_build_index_has_expected_terms_and_counts] reads. *)
Theorem build_index_scenarios :
  tokenize "RAG: Retrieval-Augmented   Generation!!!"
  = ["rag"; "retrieval"; "augmented"; "generation"]
  /\ (let index :=
        build_index [mkDocument "doc1" "RAG intro" "RAG connects LLMs" [] 1]
      in
      dict_get "rag" index = Some [("doc1", 2)]
      /\ dict_get "llms" index = Some [("doc1", 1)])
  /\ option_map (dict_get "doc1") (dict_get "rag" (build_index sample_docs))
     = Some (Some 1)
  /\ option_map (dict_get "doc3")
       (dict_get "customers" (build_index sample_docs))
     = Some (Some 1).
Proof. repeat split; vm_compute; reflexivity. Qed.

(** The searches of [test_search_respects_access_level] and of
    [test_search_max_results_and_sorting]. *)
Theorem search_scenarios :
  search (build_index sample_docs) sample_docs "customer customers" 5 (Some 1)
  = Ok []
  /\ search (build_index sample_docs) sample_docs "customer customers" 5
       (Some 3)
     = Ok [mkSearchResult "doc3" 2]
  /\ search (build_index sample_docs) sample_docs
       "customers customer enterprise private" 1 (Some 3)
     = Ok [mkSearchResult "doc3" 4].
Proof. repeat split; vm_compute; reflexivity. Qed.

(** The values of [test_precision_at_k_basic] and
    [test_precision_at_k_edge_cases], as rationals. *)
Theorem precision_at_k_scenarios :
  let retrieved :=
    [mkSearchResult "doc1" 1; mkSearchResult "doc2" 1; mkSearchResult "doc3" 1]
  in
  let gold := ["doc1"; "doc3"] in
  (precision_at_k gold retrieved 1 == 1)%Q
  /\ (precision_at_k gold retrieved 2 == 1 # 2)%Q
  /\ (precision_at_k gold retrieved 3 == 2 # 3)%Q
  /\ precision_at_k ["doc1"] [mkSearchResult "doc1" 1] 0 = 0%Q
  /\ (precision_at_k ["doc1"] [] 3 == 0)%Q
  /\ (precision_at_k ["doc1"] [mkSearchResult "doc1" 1] 5 == 1 # 5)%Q.
Proof. repeat split; vm_compute; reflexivity. Qed.

(** * Further properties of the engine *)

(** ** Word breaks, case and normal forms of the tokenizer *)

Section TokenizerAlgebra.

Lemma map_str_append (f : ascii -> ascii) (s t : string) :
  map_str f (s ++ t)%string = (map_str f s ++ map_str f t)%string.
Proof. induction s as [|c s IH]; simpl; [reflexivity|now rewrite IH]. Qed.

Lemma append_assoc (s t u : string) :
  ((s ++ t) ++ u)%string = (s ++ (t ++ u))%string.
Proof. induction s as [|c s IH]; simpl; [reflexivity|now rewrite IH]. Qed.

Lemma append_empty_r (s : string) : (s ++ EmptyString)%string = s.
Proof. induction s as [|c s IH]; simpl; [reflexivity|now rewrite IH]. Qed.

Lemma split_from_break (sp : ascii) (s t : string) :
  isspace sp = true ->
  forall cur,
    split_from cur (s ++ String sp t)
    = (split_from cur s ++ split_from EmptyString t)%list.
Proof.
  intros Hsp. induction s as [|c s IH]; intros cur; simpl.
  - now rewrite Hsp.
  - destruct (isspace c); [|apply IH].
    rewrite IH. now rewrite app_assoc.
Qed.

Lemma blank_of_not_alnum (c : ascii) :
  isalnum c = false -> alnum_or_blank (lower_char c) = " "%char.
Proof.
  destruct c as [[] [] [] [] [] [] [] []]; vm_compute; congruence.
Qed.

Lemma lower_char_idempotent (c : ascii) :
  lower_char (lower_char c) = lower_char c.
Proof. destruct c as [[] [] [] [] [] [] [] []]; reflexivity. Qed.

Lemma lower_idempotent (s : string) : lower (lower s) = lower s.
Proof.
  unfold lower. induction s as [|c s IH]; simpl; [reflexivity|].
  now rewrite lower_char_idempotent, IH.
Qed.

Lemma tokenize_break (c : ascii) (a b : string) :
  isalnum c = false ->
  tokenize (a ++ String c b) = (tokenize a ++ tokenize b)%list.
Proof.
  intros Hc. unfold tokenize, split, lower.
  rewrite !map_str_append. simpl. rewrite blank_of_not_alnum by assumption.
  now apply split_from_break.
Qed.

(** Splitting, started on the word [cur], when only separators follow. *)
Lemma split_from_blank (s : string) :
  Forall (fun c => isspace c = true) (chars s) ->
  forall cur, split_from cur s = flush cur.
Proof.
  induction s as [|c s IH]; intros Hs cur; simpl; [reflexivity|].
  unfold chars in Hs. simpl in Hs.
  apply Forall_cons_iff in Hs. destruct Hs as [Hc Hs]. rewrite Hc.
  rewrite (IH Hs). simpl. now rewrite app_nil_r.
Qed.

Lemma flush_snoc (cur : string) (c : ascii) :
  flush (cur ++ String c EmptyString) = [(cur ++ String c EmptyString)%string].
Proof. destruct cur; reflexivity. Qed.

Lemma split_from_not_nil (s : string) (cur : string) :
  cur <> EmptyString -> split_from cur s <> [].
Proof.
  revert cur. induction s as [|c s IH]; intros cur Hcur; simpl.
  - destruct cur; [contradiction|discriminate].
  - destruct (isspace c).
    + destruct cur; [contradiction|discriminate].
    + apply IH. destruct cur; discriminate.
Qed.

Lemma split_from_nil (s : string) :
  split_from EmptyString s = [] <->
  Forall (fun c => isspace c = true) (chars s).
Proof.
  induction s as [|c s IH]; simpl.
  - split; [constructor|reflexivity].
  - unfold chars in *. simpl. rewrite Forall_cons_iff.
    destruct (isspace c) eqn:Hc; simpl.
    + rewrite IH. tauto.
    + split; [|intros [H _]; discriminate].
      intros H. exfalso. revert H. now apply split_from_not_nil.
Qed.

Lemma blank_iff_not_alnum (c : ascii) :
  isspace (alnum_or_blank (lower_char c)) = true <-> isalnum c = false.
Proof.
  destruct c as [[] [] [] [] [] [] [] []]; vm_compute; split; congruence.
Qed.

End TokenizerAlgebra.

(** Between ASCII texts, every character that is not alphanumeric is a word
    break: for ASCII [a] and [b] the tokens of [a + c + b] are the tokens of
    [a] followed by the tokens of [b]. In particular the tokens of
    [title + " " + body] are those of the title followed by those of the
    body, when both are ASCII. *)
Theorem tokenize_word_break (c : ascii) (a b : string) :
  ascii_text a = true ->
  ascii_text b = true ->
  isalnum c = false ->
  tokenize (a ++ String c b) = (tokenize a ++ tokenize b)%list.
Proof. intros _ _. apply tokenize_break. Qed.

Lemma tokenize_word_break_witness :
  tokenize ("RAG intro" ++ String "-" "RAG connects")
  = (tokenize "RAG intro" ++ tokenize "RAG connects")%list.
Proof.
  apply (tokenize_word_break "-" "RAG intro" "RAG connects");
    reflexivity.
Defined.

(** Tokenizing ignores case: lowering the text first changes nothing. *)
Theorem tokenize_ignores_case (text : string) :
  tokenize (lower text) = tokenize text.
Proof. unfold tokenize. now rewrite lower_idempotent. Qed.

(** [tokenize] returns no token exactly when the text has no alphanumeric
    character (the empty string, blanks, punctuation only). *)
Theorem tokenize_nil_iff (text : string) :
  tokenize text = [] <-> Forall (fun c => isalnum c = false) (chars text).
Proof.
  unfold tokenize, split. rewrite split_from_nil.
  unfold lower. rewrite !chars_map_str, !Forall_map.
  rewrite !Forall_forall.
  split; intros H c Hc; apply blank_iff_not_alnum; now apply H.
Qed.

Section TokenizerNormalForm.

Lemma tokenize_words (text : string) : Forall word (tokenize text).
Proof.
  apply Forall_forall. intros w Hw. split.
  - pose proof (split_from_nonempty
                  (map_str alnum_or_blank (lower text)) EmptyString) as H.
    rewrite Forall_forall in H. now apply H.
  - pose proof (tokenize_chars text) as H.
    rewrite Forall_forall in H. now apply H.
Qed.

Lemma token_char_fixed (c : ascii) :
  token_char c -> alnum_or_blank (lower_char c) = c.
Proof.
  intros (Ha & Hu & _). unfold lower_char. rewrite Hu.
  unfold alnum_or_blank. now rewrite Ha.
Qed.

Lemma normalise_fixed (s : string) :
  Forall (fun c => token_char c \/ c = " "%char) (chars s) ->
  map_str alnum_or_blank (lower s) = s.
Proof.
  unfold lower. induction s as [|c s IH]; simpl; intros H; [reflexivity|].
  unfold chars in H. simpl in H.
  apply Forall_cons_iff in H. destruct H as [Hc Hs].
  rewrite (IH Hs). f_equal.
  destruct Hc as [Hc| ->]; [now apply token_char_fixed|reflexivity].
Qed.

Lemma chars_concat (ws : list string) :
  Forall word ws ->
  Forall (fun c => token_char c \/ c = " "%char) (chars (String.concat " " ws)).
Proof.
  induction ws as [|w ws IH]; intros H; [constructor|].
  apply Forall_cons_iff in H. destruct H as [[_ Hw] Hws].
  assert (Hw' : Forall (fun c => token_char c \/ c = " "%char) (chars w)).
  { revert Hw. apply Forall_impl. tauto. }
  destruct ws as [|w' ws]; [exact Hw'|].
  change (String.concat " " (w :: w' :: ws))
    with (w ++ " " ++ String.concat " " (w' :: ws))%string.
  rewrite !chars_append. apply Forall_app. split; [exact Hw'|].
  apply Forall_app. split; [|now apply IH].
  constructor; [now right|constructor].
Qed.

Lemma split_from_word (w : string) :
  Forall (fun c => isspace c = false) (chars w) ->
  forall cur rest,
    split_from cur (w ++ rest) = split_from (cur ++ w) rest.
Proof.
  induction w as [|c w IH]; intros Hw cur rest; simpl.
  - now rewrite append_empty_r.
  - unfold chars in Hw. simpl in Hw.
    apply Forall_cons_iff in Hw. destruct Hw as [Hc Hw]. rewrite Hc.
    rewrite (IH Hw). f_equal.
    rewrite append_assoc. reflexivity.
Qed.

Lemma word_no_space (w : string) :
  word w -> Forall (fun c => isspace c = false) (chars w).
Proof.
  intros [_ H]. revert H. apply Forall_impl.
  intros c (_ & _ & _ & Hs & _). exact Hs.
Qed.

Lemma flush_word (w : string) : word w -> flush w = [w].
Proof. intros [Hne _]. destruct w; [contradiction|reflexivity]. Qed.

Lemma split_concat_words (ws : list string) :
  Forall word ws -> split (String.concat " " ws) = ws.
Proof.
  unfold split. induction ws as [|w ws IH]; intros H; [reflexivity|].
  apply Forall_cons_iff in H. destruct H as [Hw Hws].
  destruct ws as [|w' ws].
  - simpl. rewrite <- (append_empty_r w) at 1.
    rewrite split_from_word by now apply word_no_space.
    simpl. now apply flush_word.
  - change (String.concat " " (w :: w' :: ws))
      with (w ++ String " " (String.concat " " (w' :: ws)))%string.
    rewrite split_from_word by now apply word_no_space.
    simpl. rewrite (flush_word w Hw). simpl. f_equal. now apply IH.
Qed.

End TokenizerNormalForm.

(** Tokens are in normal form: joining the tokens of a text with single
    spaces and tokenizing again gives the same tokens. *)
Theorem tokenize_join_tokenize (text : string) :
  tokenize (String.concat " " (tokenize text)) = tokenize text.
Proof.
  pose proof (tokenize_words text) as Hw.
  unfold tokenize at 1.
  rewrite normalise_fixed by now apply chars_concat.
  now apply split_concat_words.
Qed.

(** ** What build_index stores, read by lookup *)

Section IndexLookup.

Lemma index_get_put (index : InvertedIndex) (word d term doc_id : string)
  (count : Z) :
  index_get (index_put word d count index) term doc_id =
  if String.eqb term word && String.eqb doc_id d then Some count
  else index_get index term doc_id.
Proof.
  unfold index_get, index_put.
  destruct (String.eqb_spec term word) as [->|Hne]; simpl.
  - rewrite dict_get_set_same.
    destruct (String.eqb_spec doc_id d) as [->|Hne'].
    + apply dict_get_set_same.
    + rewrite dict_get_set_other by assumption.
      unfold dict_get_or, InvertedIndex, dict in *.
      destruct (dict_get word index); reflexivity.
  - now rewrite dict_get_set_other.
Qed.

(** The items of a counter, written into the index one after the other. *)
Lemma index_get_counts (doc : Document) (counts : dict Z)
  (term doc_id : string) :
  NoDup (keys counts) ->
  forall index,
    index_get (fold_left (index_count doc) counts index) term doc_id =
    if String.eqb doc_id (id doc) then
      match dict_get term counts with
      | Some c => if 0 <? c then Some c else index_get index term doc_id
      | None => index_get index term doc_id
      end
    else index_get index term doc_id.
Proof.
  induction counts as [|[w c] counts IH]; simpl; intros Hnd index.
  - now destruct (String.eqb doc_id (id doc)).
  - apply NoDup_cons_iff in Hnd. destruct Hnd as [Hw Hnd].
    rewrite (IH Hnd).
    assert (Hstep : index_get (if 0 <? c
                               then index_put w (id doc) c index
                               else index) term doc_id
                    = if String.eqb term w && String.eqb doc_id (id doc)
                         && (0 <? c)
                      then Some c else index_get index term doc_id).
    { destruct (0 <? c); [rewrite index_get_put|];
        destruct (String.eqb term w), (String.eqb doc_id (id doc));
        reflexivity. }
    rewrite Hstep. clear Hstep.
    destruct (String.eqb doc_id (id doc)) eqn:Ed;
      [|now rewrite andb_false_r].
    rewrite andb_true_r.
    destruct (String.eqb_spec term w) as [->|Hne]; simpl.
    + apply dict_get_None in Hw. rewrite Hw. reflexivity.
    + destruct (dict_get term counts) as [c'|]; [|reflexivity].
      now destruct (0 <? c').
Qed.

Lemma index_get_document (index : InvertedIndex) (doc : Document)
  (term doc_id : string) :
  index_get (index_document index doc) term doc_id =
  if String.eqb doc_id (id doc) && (0 <? occurrences term (doc_tokens doc))
  then Some (occurrences term (doc_tokens doc))
  else index_get index term doc_id.
Proof.
  unfold index_document.
  rewrite index_get_counts by apply Counter_NoDup.
  rewrite Counter_get.
  destruct (String.eqb doc_id (id doc)); simpl; [|reflexivity].
  destruct (0 <? occurrences term (doc_tokens doc)) eqn:E; [|reflexivity].
  now rewrite E.
Qed.

Lemma index_get_other_documents (docs : list Document)
  (term doc_id : string) :
  (forall d, In d docs -> id d <> doc_id) ->
  forall index,
    index_get (fold_left index_document docs index) term doc_id
    = index_get index term doc_id.
Proof.
  induction docs as [|d docs IH]; simpl; intros Hids index; [reflexivity|].
  rewrite IH by (intros d' Hd'; apply Hids; now right).
  rewrite index_get_document.
  destruct (String.eqb_spec doc_id (id d)) as [E|_]; [|reflexivity].
  exfalso. apply (Hids d); [now left|now symmetry].
Qed.

Lemma index_get_stored (docs : list Document) (doc : Document)
  (term : string) :
  NoDup (map id docs) -> In doc docs ->
  0 < occurrences term (doc_tokens doc) ->
  forall index,
    index_get (fold_left index_document docs index) term (id doc)
    = Some (occurrences term (doc_tokens doc)).
Proof.
  induction docs as [|d docs IH]; simpl; intros Hnd Hin Hocc index;
    [contradiction|].
  apply NoDup_cons_iff in Hnd. destruct Hnd as [Hd Hnd].
  destruct Hin as [->|Hin]; [|now apply IH].
  rewrite index_get_other_documents.
  - rewrite index_get_document, String.eqb_refl. simpl.
    apply Z.ltb_lt in Hocc. now rewrite Hocc.
  - intros d' Hd' E. apply Hd. rewrite <- E. now apply in_map.
Qed.

Lemma occurrences_positive_iff (x : string) (xs : list string) :
  0 < occurrences x xs <-> In x xs.
Proof.
  unfold occurrences. rewrite (count_occ_In string_dec). lia.
Qed.

End IndexLookup.

(** For documents with pairwise distinct ids, [index[term][doc_id]] exists
    and is [f] exactly when [term] occurs [f >= 1] times among the tokens
    of the document with that id: every token of every document is indexed,
    and nothing else is. *)
Theorem build_index_lookup (documents : list Document)
  (term doc_id : string) (f : Z) :
  NoDup (map id documents) ->
  index_get (build_index documents) term doc_id = Some f
  <-> exists doc,
        In doc documents /\ id doc = doc_id
        /\ In term (tokenize (title doc ++ " " ++ body doc)%string)
        /\ f = Z.of_nat
                 (count_occ string_dec
                    (tokenize (title doc ++ " " ++ body doc)%string) term).
Proof.
  intros Hnd. split.
  - unfold index_get.
    destruct (dict_get term (build_index documents)) as [inner|] eqn:E;
      [|discriminate].
    intros Hf. apply dict_get_In in E, Hf.
    destruct (build_index_inv documents) as [_ Hall].
    destruct (Hall _ _ E) as (_ & _ & Hentries).
    destruct (Hentries _ _ Hf) as (doc & Hdoc & Hid & Hcount & Hpos).
    exists doc. repeat split; try assumption.
    apply occurrences_positive_iff. fold (doc_tokens doc). lia.
  - intros (doc & Hdoc & <- & Hin & ->).
    apply occurrences_positive_iff in Hin.
    now apply (index_get_stored documents doc term Hnd Hdoc Hin []).
Qed.

Lemma build_index_lookup_witness :
  index_get (build_index sample_docs) "to" "doc1" = Some 2
  <-> exists doc,
        In doc sample_docs /\ id doc = "doc1"
        /\ In "to" (tokenize (title doc ++ " " ++ body doc)%string)
        /\ 2 = Z.of_nat
                 (count_occ string_dec
                    (tokenize (title doc ++ " " ++ body doc)%string) "to").
Proof.
  apply (build_index_lookup sample_docs "to" "doc1" 2).
  repeat constructor; simpl; intros H;
    repeat (destruct H as [H|H]; [discriminate H|]); exact H.
Defined.

(** ** The score is a sum of term frequencies *)

Section ScoreSum.
Variable index : InvertedIndex.
Variable id2doc : dict Document.
Variable ual : option Z.

Lemma dict_get_or_add (k did : string) (n : Z) (d : dict Z) :
  dict_get_or 0 did (dict_add k n d) =
  if String.eqb did k then dict_get_or 0 k d + n else dict_get_or 0 did d.
Proof.
  unfold dict_add, dict_get_or at 1.
  destruct (String.eqb_spec did k) as [->|Hne].
  - now rewrite dict_get_set_same.
  - rewrite dict_get_set_other by assumption. reflexivity.
Qed.

Lemma posting_total_cons (did k : string) (f : Z) (rest : dict Z) :
  posting_total did ((k, f) :: rest) =
  (if String.eqb k did then f else 0) + posting_total did rest.
Proof.
  unfold posting_total. simpl. now destruct (String.eqb k did).
Qed.

Lemma postings_accumulate (postings : dict Z) :
  forall s s',
    for_each (score_posting id2doc ual) postings s = Ok s' ->
    forall did,
      dict_get_or 0 did s' =
      dict_get_or 0 did s
      + (if visible id2doc ual did then posting_total did postings else 0).
Proof.
  induction postings as [|[k f] rest IH]; intros s s' Hrun did;
    cbn [for_each] in Hrun.
  - injection Hrun as <-. destruct (visible id2doc ual did); cbn; lia.
  - rewrite score_posting_eq in Hrun.
    destruct (subscript id2doc k) as [doc|e] eqn:Edoc; simpl in Hrun;
      [|discriminate].
    apply subscript_Ok in Edoc.
    rewrite (IH _ _ Hrun did), posting_total_cons.
    destruct (String.eqb_spec k did) as [->|Hne].
    + unfold visible. rewrite Edoc.
      destruct (passes doc ual).
      * rewrite dict_get_or_add, String.eqb_refl. lia.
      * lia.
    + assert (E : dict_get_or 0 did
                    (if passes doc ual then dict_add k f s else s)
                  = dict_get_or 0 did s).
      { destruct (passes doc ual); [|reflexivity].
        rewrite dict_get_or_add.
        destruct (String.eqb_spec did k); [congruence|reflexivity]. }
      rewrite E. destruct (visible id2doc ual did); lia.
Qed.

Lemma tokens_accumulate (tokens : list string) :
  forall s s',
    for_each (score_token index id2doc ual) tokens s = Ok s' ->
    forall did,
      dict_get_or 0 did s' =
      dict_get_or 0 did s
      + (if visible id2doc ual did then query_score index tokens did else 0).
Proof.
  induction tokens as [|t tokens IH]; simpl; intros s s' Hrun did.
  - injection Hrun as <-. destruct (visible id2doc ual did); cbn; lia.
  - destruct (score_token index id2doc ual s t) as [s1|e] eqn:Et;
      simpl in Hrun; [|discriminate].
    rewrite (IH _ _ Hrun did).
    unfold query_score. simpl. fold (query_score index tokens did).
    unfold score_token in Et. unfold token_score.
    destruct (dict_get t index) as [postings|].
    + rewrite (postings_accumulate _ _ _ Et did).
      destruct (visible id2doc ual did); lia.
    + injection Et as <-. destruct (visible id2doc ual did); lia.
Qed.

(** The keys of [scores] after the loops: the old ones, and every permitted
    document that a posting of a query token names. *)
Lemma postings_keys (postings : dict Z) :
  forall s s',
    for_each (score_posting id2doc ual) postings s = Ok s' ->
    forall did,
      In did (keys s)
      \/ (visible id2doc ual did = true /\ In did (keys postings)) ->
      In did (keys s').
Proof.
  induction postings as [|[k f] rest IH]; intros s s' Hrun did Hdid;
    cbn [for_each] in Hrun; simpl in Hdid.
  - injection Hrun as <-. tauto.
  - rewrite score_posting_eq in Hrun.
    destruct (subscript id2doc k) as [doc|e] eqn:Edoc; simpl in Hrun;
      [|discriminate].
    apply subscript_Ok in Edoc.
    apply (IH _ _ Hrun did).
    destruct Hdid as [Hdid|[Hvis [->|Hdid]]].
    + left. destruct (passes doc ual); [|assumption].
      apply In_keys_set. now right.
    + left. unfold visible in Hvis. rewrite Edoc in Hvis. rewrite Hvis.
      apply In_keys_set. now left.
    + right. now split.
Qed.

Lemma tokens_keys (tokens : list string) :
  forall s s',
    for_each (score_token index id2doc ual) tokens s = Ok s' ->
    forall did,
      In did (keys s)
      \/ (visible id2doc ual did = true
          /\ exists f, reached index tokens did f) ->
      In did (keys s').
Proof.
  induction tokens as [|t tokens IH]; simpl; intros s s' Hrun did Hdid.
  - injection Hrun as <-.
    destruct Hdid as [H|[_ (f & tok & p & [] & _)]]. exact H.
  - destruct (score_token index id2doc ual s t) as [s1|e] eqn:Et;
      simpl in Hrun; [|discriminate].
    apply (IH _ _ Hrun did).
    unfold score_token in Et.
    destruct Hdid as [Hdid|[Hvis (f & tok & p & [<-|Htok] & Hget & Hin)]].
    + left. destruct (dict_get t index) as [postings|].
      * apply (postings_keys _ _ _ Et). now left.
      * now injection Et as <-.
    + left. rewrite Hget in Et. apply (postings_keys _ _ _ Et).
      right. split; [assumption|]. now apply In_keys with f.
    + right. split; [assumption|]. now exists f, tok, p.
Qed.

End ScoreSum.

Lemma posting_total_get (did : string) (postings : dict Z) :
  NoDup (keys postings) ->
  posting_total did postings = dict_get_or 0 did postings.
Proof.
  induction postings as [|[k f] rest IH]; intros Hnd; [reflexivity|].
  simpl in Hnd. apply NoDup_cons_iff in Hnd. destruct Hnd as [Hk Hnd].
  rewrite posting_total_cons, (IH Hnd). unfold dict_get_or. simpl.
  rewrite (String.eqb_sym did k).
  destruct (String.eqb_spec k did) as [->|Hne]; [|lia].
  apply dict_get_None in Hk. rewrite Hk. lia.
Qed.

Lemma search_score_sum (index : InvertedIndex) (documents : list Document)
  (query : string) (max_results : Z) (ual : option Z)
  (r : list SearchResult) (res : SearchResult) :
  search index documents query max_results ual = Ok r ->
  In res r ->
  score res = query_score index (tokenize query) (doc_id res)
  /\ exists doc,
      dict_get (doc_id res) (id2doc_of documents) = Some doc
      /\ passes doc ual = true.
Proof.
  intros H Hres. apply search_Ok in H. destruct H as (scores & Hrun & ->).
  apply In_slice_to in Hres. rewrite sort_results_In in Hres.
  apply In_to_result in Hres.
  destruct (scores_provenance _ _ _ _ _ Hrun (doc_id res))
    as [(doc & Hdoc & Hpass) _]; [now apply In_keys with (score res)|].
  split; [|now exists doc].
  pose proof (tokens_accumulate _ _ _ _ _ _ Hrun (doc_id res)) as Hsum.
  apply In_dict_get in Hres; [|now apply scores_NoDup in Hrun].
  unfold dict_get_or at 1 in Hsum. rewrite Hres in Hsum.
  unfold visible in Hsum. rewrite Hdoc, Hpass in Hsum.
  exact Hsum.
Qed.

(** The score of every result is the sum, over the tokens of the query (a
    repeated token counting each time), of the frequency that the index
    lists for the document under that token. *)
Theorem search_score_is_sum (index : InvertedIndex)
  (documents : list Document) (query : string) (max_results : Z)
  (user_access_level : option Z) (r : list SearchResult)
  (res : SearchResult) :
  search index documents query max_results user_access_level = Ok r ->
  In res r ->
  score res = query_score index (tokenize query) (doc_id res).
Proof. intros H Hres. now apply (search_score_sum _ _ _ _ _ _ _ H Hres). Qed.

Lemma search_score_is_sum_witness :
  4 = query_score (build_index sample_docs)
        (tokenize "customers customer enterprise private") "doc3".
Proof.
  apply (search_score_is_sum (build_index sample_docs) sample_docs
           "customers customer enterprise private" 1 (Some 3)
           [mkSearchResult "doc3" 4] (mkSearchResult "doc3" 4)).
  - vm_compute. reflexivity.
  - left. reflexivity.
Defined.

(** ** What search returns, and what it leaves out *)

Section SearchResults.

Lemma id2doc_entries (documents : list Document) (k : string)
  (doc : Document) :
  dict_get k (id2doc_of documents) = Some doc ->
  In doc documents /\ id doc = k.
Proof.
  intros H. apply dict_get_In in H. revert k doc H.
  enough (Hinv : NoDup (keys (id2doc_of documents))
                 /\ forall k doc, In (k, doc) (id2doc_of documents) ->
                                  In doc documents /\ id doc = k)
    by apply Hinv.
  unfold id2doc_of.
  apply fold_left_invariant with
    (I := fun m : dict Document =>
            NoDup (keys m)
            /\ forall k doc, In (k, doc) m -> In doc documents /\ id doc = k).
  - intros m d Hd [Hnd Hall]. split; [now apply NoDup_keys_set|].
    intros k doc Hin. apply In_dict_set in Hin; [|assumption].
    destruct Hin as [[-> ->]|[_ Hin]]; [now split|now apply Hall].
  - split; [constructor|]. intros k doc [].
Qed.

Lemma slice_to_all {A : Type} (l : list A) (n : Z) :
  Z.of_nat (List.length (slice_to l n)) < n -> slice_to l n = l.
Proof.
  unfold slice_to. destruct (n <? 0) eqn:E.
  - apply Z.ltb_lt in E. lia.
  - rewrite length_firstn. intros H. apply firstn_all2. lia.
Qed.

Lemma firstn_slice_to {A : Type} (l : list A) (m n : Z) :
  0 <= m <= n -> slice_to l m = firstn (Z.to_nat m) (slice_to l n).
Proof.
  intros [Hm Hn]. unfold slice_to.
  destruct (m <? 0) eqn:Em; [apply Z.ltb_lt in Em; lia|].
  destruct (n <? 0) eqn:En; [apply Z.ltb_lt in En; lia|].
  rewrite firstn_firstn. f_equal. lia.
Qed.

Lemma scoring_no_token (index : InvertedIndex) (id2doc : dict Document)
  (ual : option Z) (tokens : list string) :
  (forall t, In t tokens -> dict_get t index = None) ->
  forall s, for_each (score_token index id2doc ual) tokens s = Ok s.
Proof.
  induction tokens as [|t tokens IH]; simpl; intros Hnone s; [reflexivity|].
  unfold score_token at 1. rewrite (Hnone t (or_introl eq_refl)). simpl.
  apply IH. intros t' Ht'. apply Hnone. now right.
Qed.

Lemma reached_built_index (documents : list Document)
  (tokens : list string) (doc_id : string) (f : Z) :
  reached (build_index documents) tokens doc_id f ->
  In doc_id (map id documents).
Proof.
  intros (token & postings & _ & Hget & Hin).
  apply dict_get_In in Hget.
  destruct (build_index_inv documents) as [_ Hall].
  destruct (Hall _ _ Hget) as (_ & _ & Hentries).
  destruct (Hentries _ _ Hin) as (doc & Hdoc & <- & _).
  now apply in_map.
Qed.

Lemma token_score_built_index (documents : list Document) (doc : Document)
  (token : string) :
  NoDup (map id documents) -> In doc documents ->
  token_score (build_index documents) (id doc) token
  = occurrences token (doc_tokens doc).
Proof.
  intros Hnd Hdoc. unfold token_score.
  destruct (Z.lt_total 0 (occurrences token (doc_tokens doc)))
    as [Hpos|Hzero].
  - pose proof (index_get_stored documents doc token Hnd Hdoc Hpos [])
      as Hget.
    fold (build_index documents) in Hget. unfold index_get in Hget.
    destruct (dict_get token (build_index documents)) as [postings|] eqn:E;
      [|discriminate].
    rewrite posting_total_get.
    + unfold dict_get_or. now rewrite Hget.
    + apply dict_get_In in E.
      destruct (build_index_inv documents) as [_ Hall].
      now destruct (Hall _ _ E) as (_ & H & _).
  - assert (Hocc : occurrences token (doc_tokens doc) = 0)
      by (pose proof (occurrences_nonneg token (doc_tokens doc)); lia).
    rewrite Hocc.
    destruct (dict_get token (build_index documents)) as [postings|] eqn:E;
      [|reflexivity].
    apply dict_get_In in E.
    destruct (build_index_inv documents) as [_ Hall].
    destruct (Hall _ _ E) as (_ & Hkeys & Hentries).
    rewrite posting_total_get by assumption. unfold dict_get_or.
    destruct (dict_get (id doc) postings) as [f|] eqn:Ef; [|reflexivity].
    apply dict_get_In in Ef.
    destruct (Hentries _ _ Ef) as (doc' & Hdoc' & Hid & Hf & Hpos).
    assert (doc' = doc)
      by (apply (NoDup_map_injective id documents); assumption).
    subst doc'. lia.
Qed.

End SearchResults.

(** Every result of [search] names a document of [documents]. *)
Theorem search_results_are_documents (index : InvertedIndex)
  (documents : list Document) (query : string) (max_results : Z)
  (user_access_level : option Z) (r : list SearchResult) :
  search index documents query max_results user_access_level = Ok r ->
  forall res, In res r ->
    exists doc, In doc documents /\ id doc = doc_id res.
Proof.
  intros H res Hres.
  destruct (search_score_sum _ _ _ _ _ _ _ H Hres) as [_ (doc & Hdoc & _)].
  exists doc. now apply id2doc_entries.
Qed.

Lemma search_results_are_documents_witness :
  exists doc, In doc sample_docs /\ id doc = "doc3".
Proof.
  assert (Hrun : search (build_index sample_docs) sample_docs
                   "customer customers" 5 (Some 3)
                 = Ok [mkSearchResult "doc3" 2]).
  { vm_compute. reflexivity. }
  exact (search_results_are_documents _ _ _ _ _ _ Hrun
           (mkSearchResult "doc3" 2) (or_introl eq_refl)).
Defined.

(** When [search] returns fewer than [max_results] results, nothing was cut
    off: every document that the index lists under a token of the query and
    that passes the access test is among the results. *)
Theorem search_complete_below_limit (index : InvertedIndex)
  (documents : list Document) (query : string) (max_results : Z)
  (user_access_level : option Z) (r : list SearchResult)
  (key : string) (f : Z) (doc : Document) :
  search index documents query max_results user_access_level = Ok r ->
  Z.of_nat (List.length r) < max_results ->
  reached index (tokenize query) key f ->
  dict_get key (id2doc_of documents) = Some doc ->
  passes doc user_access_level = true ->
  In key (map doc_id r).
Proof.
  intros H Hlen Hreach Hdoc Hpass.
  apply search_Ok in H. destruct H as (scores & Hrun & ->).
  rewrite slice_to_all in * by assumption.
  assert (Hkey : In key (keys scores)).
  { apply (tokens_keys _ _ _ _ _ _ Hrun). right.
    split; [|now exists f]. unfold visible. now rewrite Hdoc. }
  apply in_map_iff in Hkey. destruct Hkey as ([k n] & <- & Hin).
  apply in_map_iff. exists (mkSearchResult k n). split; [reflexivity|].
  apply sort_results_In, In_to_result. exact Hin.
Qed.

Lemma search_complete_below_limit_witness :
  In "doc2" (map doc_id [mkSearchResult "doc1" 2; mkSearchResult "doc2" 1]).
Proof.
  apply (search_complete_below_limit (build_index sample_docs) sample_docs
           "retrieval rag" 5 (Some 2) _ "doc2" 1
           (mkDocument "doc2" "Context engineering best practices"
              "Chunking, retrieval, and prompting work together."
              ["context"; "best-practices"] 2)).
  - vm_compute. reflexivity.
  - simpl. lia.
  - exists "retrieval", [("doc1", 1); ("doc2", 1)].
    split; [left; reflexivity|].
    split; [vm_compute; reflexivity|right; left; reflexivity].
  - vm_compute. reflexivity.
  - reflexivity.
Defined.

(** A smaller limit returns a prefix of what a larger limit returns. *)
Theorem search_limit_prefix (index : InvertedIndex)
  (documents : list Document) (query : string) (m n : Z)
  (user_access_level : option Z) (r : list SearchResult) :
  0 <= m <= n ->
  search index documents query n user_access_level = Ok r ->
  search index documents query m user_access_level
  = Ok (firstn (Z.to_nat m) r).
Proof.
  intros Hmn. unfold search.
  destruct (ranked index documents query user_access_level) as [l|e];
    simpl; [|discriminate].
  intros [= <-]. f_equal. now apply firstn_slice_to.
Qed.

Lemma search_limit_prefix_witness :
  search (build_index sample_docs) sample_docs "retrieval rag" 1 None
  = Ok (firstn (Z.to_nat 1)
          [mkSearchResult "doc1" 2; mkSearchResult "doc2" 1]).
Proof.
  apply (search_limit_prefix (build_index sample_docs) sample_docs
           "retrieval rag" 1 5 None).
  - lia.
  - vm_compute. reflexivity.
Defined.

(** When no token of the query is a key of the index (an empty query, an
    empty index, unknown words), [search] returns the empty list and never
    looks a document up, whatever [documents] holds. *)
Theorem search_no_indexed_token (index : InvertedIndex)
  (documents : list Document) (query : string) (max_results : Z)
  (user_access_level : option Z) :
  (forall t, In t (tokenize query) -> dict_get t index = None) ->
  search index documents query max_results user_access_level = Ok [].
Proof.
  intros Hnone. unfold search, ranked.
  rewrite (scoring_no_token index (id2doc_of documents) user_access_level
             (tokenize query) Hnone). simpl.
  unfold slice_to. destruct (max_results <? 0); now rewrite firstn_nil.
Qed.

Lemma search_no_indexed_token_witness :
  search (build_index sample_docs) [] "... !?" 5 (Some 1) = Ok [].
Proof.
  apply search_no_indexed_token.
  intros t Ht. vm_compute in Ht. contradiction.
Defined.

(** Searching the index built from the same documents never raises. *)
Theorem search_built_index_returns (documents : list Document)
  (query : string) (max_results : Z) (user_access_level : option Z) :
  exists r,
    search (build_index documents) documents query max_results
      user_access_level = Ok r.
Proof.
  unfold search, ranked.
  destruct (scoring_returns (build_index documents) documents
              user_access_level (tokenize query)
              (reached_built_index documents (tokenize query)) [])
    as [scores ->].
  simpl. eauto.
Qed.

(** For documents with pairwise distinct ids, searching the index built
    from them scores a document by the number of occurrences, in its title
    and body, of the tokens of the query, a repeated token counting each
    time; and every result passes the access test. *)
Theorem search_built_index_scores (documents : list Document)
  (query : string) (max_results : Z) (user_access_level : option Z)
  (r : list SearchResult) :
  NoDup (map id documents) ->
  search (build_index documents) documents query max_results
    user_access_level = Ok r ->
  forall res, In res r ->
    exists doc,
      In doc documents /\ id doc = doc_id res
      /\ passes doc user_access_level = true
      /\ score res
         = Zsum (map (fun t => Z.of_nat
                                 (count_occ string_dec
                                    (tokenize (title doc ++ " " ++ body doc)
                                               %string) t))
                   (tokenize query)).
Proof.
  intros Hnd H res Hres.
  destruct (search_score_sum _ _ _ _ _ _ _ H Hres)
    as [Hscore (doc & Hdoc & Hpass)].
  apply id2doc_entries in Hdoc. destruct Hdoc as [Hdoc Hid].
  exists doc. repeat split; try assumption.
  rewrite Hscore, <- Hid. unfold query_score. f_equal.
  apply map_ext. intros t. now apply token_score_built_index.
Qed.

Lemma search_built_index_scores_witness :
  exists doc,
    In doc sample_docs /\ id doc = "doc3"
    /\ passes doc (Some 3) = true
    /\ 4 = Zsum (map (fun t => Z.of_nat
                                 (count_occ string_dec
                                    (tokenize (title doc ++ " " ++ body doc)
                                               %string) t))
                   (tokenize "customers customer enterprise private")).
Proof.
  assert (Hids : NoDup (map id sample_docs)).
  { repeat constructor; simpl; intros H;
      repeat (destruct H as [H|H]; [discriminate H|]); exact H. }
  assert (Hrun : search (build_index sample_docs) sample_docs
                   "customers customer enterprise private" 1 (Some 3)
                 = Ok [mkSearchResult "doc3" 4]).
  { vm_compute. reflexivity. }
  exact (search_built_index_scores _ _ _ _ _ Hids Hrun
           (mkSearchResult "doc3" 4) (or_introl eq_refl)).
Defined.

(** The query is matched without regard to case. *)
Theorem search_ignores_case (index : InvertedIndex)
  (documents : list Document) (query : string) (max_results : Z)
  (user_access_level : option Z) :
  search index documents (lower query) max_results user_access_level
  = search index documents query max_results user_access_level.
Proof.
  unfold search, ranked, tokenize. now rewrite lower_idempotent.
Qed.

(** ** Bounds of precision_at_k *)

Section PrecisionBounds.

Lemma hits_bounds (gold : set string) (l : list SearchResult) (k : Z) :
  0 < k -> 0 <= hits gold l k <= k.
Proof.
  intros Hk. unfold hits. split; [lia|].
  pose proof (filter_length_le (relevant gold)
                (firstn (Nat.min (Z.to_nat k) (List.length l)) l)) as H1.
  pose proof (firstn_le_length (Nat.min (Z.to_nat k) (List.length l)) l)
    as H2.
  lia.
Qed.

Lemma ratio_bounds (h k : Z) :
  0 < k -> 0 <= h <= k ->
  (0 <= inject_Z h / inject_Z k /\ inject_Z h / inject_Z k <= 1)%Q.
Proof.
  intros Hk [H0 H1].
  assert (HkQ : (inject_Z 0 < inject_Z k)%Q)
    by (rewrite <- Zlt_Qlt; exact Hk).
  split.
  - apply Qle_shift_div_l; [exact HkQ|].
    rewrite Qmult_0_l. change 0%Q with (inject_Z 0).
    rewrite <- Zle_Qle. exact H0.
  - apply Qle_shift_div_r; [exact HkQ|].
    rewrite Qmult_1_l. rewrite <- Zle_Qle. exact H1.
Qed.

End PrecisionBounds.

(** [precision_at_k] always lies between 0 and 1. *)
Theorem precision_at_k_bounds (gold_relevant : set string)
  (retrieved : list SearchResult) (k : Z) :
  (0 <= precision_at_k gold_relevant retrieved k
   /\ precision_at_k gold_relevant retrieved k <= 1)%Q.
Proof.
  destruct (Z.le_gt_cases k 0) as [Hk|Hk].
  - unfold precision_at_k. apply Z.leb_le in Hk. rewrite Hk.
    split; discriminate.
  - rewrite precision_positive_k by assumption.
    apply ratio_bounds; [assumption|now apply hits_bounds].
Qed.

(** Only the first [k] results count: cutting [retrieved] after [k]
    entries, or appending more entries after them, leaves the value. *)
Theorem precision_at_k_top_k_only (gold_relevant : set string)
  (retrieved more : list SearchResult) (k : Z) :
  precision_at_k gold_relevant (firstn (Z.to_nat k) retrieved) k
  = precision_at_k gold_relevant retrieved k
  /\ (k <= Z.of_nat (List.length retrieved) ->
      precision_at_k gold_relevant (retrieved ++ more) k
      = precision_at_k gold_relevant retrieved k).
Proof.
  unfold precision_at_k. destruct (k <=? 0) eqn:Hk; [split; reflexivity|].
  apply Z.leb_gt in Hk. unfold slice_to.
  destruct (k <? 0) eqn:Hk'; [apply Z.ltb_lt in Hk'; lia|].
  split.
  - rewrite firstn_firstn. now rewrite Nat.min_id.
  - intros Hlen. rewrite firstn_app.
    replace (Z.to_nat k - List.length retrieved)%nat with 0%nat by lia.
    now rewrite firstn_0, app_nil_r.
Qed.

Lemma precision_at_k_top_k_only_witness :
  precision_at_k ["doc1"] ([mkSearchResult "doc1" 1] ++ [mkSearchResult "doc2" 1]) 1
  = precision_at_k ["doc1"] [mkSearchResult "doc1" 1] 1.
Proof.
  apply (proj2 (precision_at_k_top_k_only ["doc1"] [mkSearchResult "doc1" 1]
                  [mkSearchResult "doc2" 1] 1)).
  simpl. lia.
Defined.

(** When the unrestricted search was not cut off by [max_results], the
    search for [user_access_level] returns the same results, scores and
    order, with the documents that fail the access test left out. *)
Theorem search_restriction_filters (index : InvertedIndex)
  (documents : list Document) (query : string) (max_results : Z)
  (user_access_level : option Z) (rN : list SearchResult) :
  search index documents query max_results None = Ok rN ->
  Z.of_nat (List.length rN) < max_results ->
  search index documents query max_results user_access_level
  = Ok (filter
          (fun r => visible (id2doc_of documents) user_access_level (doc_id r))
          rN).
Proof.
  unfold search.
  destruct (ranked index documents query None) as [l|e] eqn:E; simpl;
    [|discriminate].
  intros [= <-] Hlen.
  rewrite (ranked_restricted _ _ _ user_access_level _ E). simpl.
  pose proof (slice_to_all l max_results Hlen) as Hall.
  rewrite Hall in Hlen |- *.
  f_equal. unfold slice_to.
  destruct (max_results <? 0) eqn:Hneg; [apply Z.ltb_lt in Hneg; lia|].
  apply firstn_all2.
  pose proof (filter_length_le
                (fun r => visible (id2doc_of documents) user_access_level
                            (doc_id r)) l).
  lia.
Qed.

Lemma search_restriction_filters_witness :
  search (build_index sample_docs) sample_docs "retrieval customers" 5
    (Some 2)
  = Ok (filter
          (fun r => visible (id2doc_of sample_docs) (Some 2) (doc_id r))
          [mkSearchResult "doc1" 1; mkSearchResult "doc2" 1;
           mkSearchResult "doc3" 1]).
Proof.
  apply (search_restriction_filters (build_index sample_docs) sample_docs
           "retrieval customers" 5 (Some 2)).
  - vm_compute. reflexivity.
  - simpl. lia.
Defined.

(** * The document chunker *)

Module ChunkerFacts.
Import Chunker ChunkerSpec.

Example chunk_single_word :
  _chunk_fixed_size 10 (mkDocumentChunker FIXED_SIZE 100 50) "Hello" "short"
  = Some [mkChunk 0 "Hello" 0 4
            [("doc_id", AStr "short"); ("token_count", AInt 1);
             ("strategy", AStrategy FIXED_SIZE)]].
Proof. vm_compute. reflexivity. Qed.

Example chunk_overlapping :
  option_map (map (fun c => (chunk_id c, text c, start_pos c, end_pos c)))
    (_chunk_fixed_size 10 (mkDocumentChunker FIXED_SIZE 4 1)
       "abcdefghij" "d")
  = Some [(0, "abcd", 0, 3); (1, "defg", 3, 6); (2, "ghij", 6, 9)].
Proof. vm_compute. reflexivity. Qed.

Section FixedSize.
Import ChunkerSpec.
Variable self : DocumentChunker.
Variables document doc_id : string.

Lemma loop_chunks_S (n : nat) :
  loop_chunks self document doc_id (S n)
  = (loop_chunks self document doc_id n
     ++ [loop_chunk self document doc_id (Z.of_nat n)])%list.
Proof. unfold loop_chunks. now rewrite seq_S, map_app. Qed.

(** From the state after [n] passes, with enough fuel, the loop stops after
    some [m >= n] passes. *)
Lemma fixed_size_loop_run (fuel : nat) :
  0 < stride self ->
  forall n : nat,
    0 < Z.of_nat fuel ->
    len document - (Z.of_nat n * stride self + chunk_size self)
    < Z.of_nat fuel ->
    exists m : nat,
      (n <= m)%nat
      /\ fixed_size_loop fuel self document doc_id
           (Z.of_nat n * stride self)
           (Z.of_nat n * stride self + chunk_size self)
           (Z.of_nat n) (loop_chunks self document doc_id n)
         = Some (Z.of_nat m * stride self, Z.of_nat m,
                 loop_chunks self document doc_id m)
      /\ len document <= Z.of_nat m * stride self + chunk_size self
      /\ forall i : nat,
          (n <= i < m)%nat ->
          Z.of_nat i * stride self + chunk_size self < len document.
Proof.
  intros Hstride.
  induction fuel as [|fuel IH]; intros n Hfuel Hbound; [simpl in Hfuel; lia|].
  cbn [fixed_size_loop].
  destruct (Z.of_nat n * stride self + chunk_size self <? len document)
    eqn:Econd.
  - apply Z.ltb_lt in Econd.
    destruct (IH (S n)) as (m & Hm & Hrun & Hexit & Hall).
    + lia.
    + unfold stride in *. lia.
    + exists m. split; [lia|]. split; [|split].
      * rewrite <- Hrun. rewrite loop_chunks_S. unfold loop_chunk.
        f_equal; unfold stride; lia.
      * exact Hexit.
      * intros i Hi. destruct (Nat.eq_dec i n) as [->|Hne];
          [exact Econd|apply Hall; lia].
  - apply Z.ltb_ge in Econd. exists n.
    split; [lia|]. split; [reflexivity|]. split; [exact Econd|].
    intros i Hi. lia.
Qed.

(** The result in closed form, for [0 <= overlap < chunk_size]. *)
Lemma chunk_fixed_size_closed_form (fuel : nat) :
  0 <= overlap self < chunk_size self ->
  len document < Z.of_nat fuel ->
  exists m : nat,
    _chunk_fixed_size fuel self document doc_id
    = Some (loop_chunks self document doc_id m
            ++ (if 0 <? len document
                then [last_chunk self document doc_id (Z.of_nat m)]
                else []))%list
    /\ len document <= Z.of_nat m * stride self + chunk_size self
    /\ forall i : nat,
        (i < m)%nat ->
        Z.of_nat i * stride self + chunk_size self < len document.
Proof.
  intros Hparams Hfuel.
  assert (Hlen : 0 <= len document) by (unfold len; lia).
  assert (Hstride : 0 < stride self) by (unfold stride; lia).
  destruct (fixed_size_loop_run fuel Hstride 0) as (m & _ & Hrun & Hexit & Hall).
  - lia.
  - simpl. lia.
  - exists m. split; [|split; [exact Hexit|intros i Hi; apply Hall; lia]].
    unfold _chunk_fixed_size.
    change (fixed_size_loop fuel self document doc_id 0 (chunk_size self) 0 [])
      with (fixed_size_loop fuel self document doc_id
              (Z.of_nat 0 * stride self)
              (Z.of_nat 0 * stride self + chunk_size self)
              (Z.of_nat 0) (loop_chunks self document doc_id 0)).
    rewrite Hrun.
    assert (Hsp : (Z.of_nat m * stride self <? len document)
                  = (0 <? len document)).
    { destruct (0 <? len document) eqn:E0.
      - apply Z.ltb_lt in E0. apply Z.ltb_lt.
        destruct m as [|m']; [simpl; lia|].
        pose proof (Hall m' ltac:(lia)) as Hprev.
        unfold stride in *. lia.
      - apply Z.ltb_ge in E0. apply Z.ltb_ge.
        assert (0 <= Z.of_nat m * stride self) by lia. lia. }
    rewrite Hsp. destruct (0 <? len document); [reflexivity|].
    now rewrite app_nil_r.
Qed.

End FixedSize.

Section Strings.

Lemma substring_length (s : string) :
  forall n m : nat,
    (n + m <= String.length s)%nat -> String.length (substring n m s) = m.
Proof.
  induction s as [|c s IH]; intros [|n] [|m] H; simpl in *;
    try reflexivity; try lia.
  - f_equal. apply (IH 0%nat). simpl. lia.
  - apply (IH n 0%nat). lia.
  - apply IH. lia.
Qed.

Lemma substring_all (s : string) : substring 0 (String.length s) s = s.
Proof. induction s as [|c s IH]; simpl; [reflexivity|now rewrite IH]. Qed.

Lemma slice_inside (s : string) (lo hi : Z) :
  0 <= lo <= hi -> hi <= len s ->
  slice s lo hi = substring (Z.to_nat lo) (Z.to_nat (hi - lo)) s
  /\ len (slice s lo hi) = hi - lo.
Proof.
  intros Hlo Hhi. unfold slice, clamp.
  destruct (lo <? 0) eqn:E1; [apply Z.ltb_lt in E1; lia|].
  destruct (hi <? 0) eqn:E2; [apply Z.ltb_lt in E2; lia|].
  rewrite !Z.min_l by lia. split; [reflexivity|].
  unfold len in *. rewrite substring_length; lia.
Qed.

Lemma slice_from_inside (s : string) (lo : Z) :
  0 <= lo <= len s ->
  slice_from s lo = slice s lo (len s)
  /\ len (slice_from s lo) = len s - lo.
Proof.
  intros Hlo. unfold slice_from, slice, clamp.
  destruct (lo <? 0) eqn:E1; [apply Z.ltb_lt in E1; lia|].
  assert (E2 : (len s <? 0) = false) by (apply Z.ltb_ge; unfold len; lia).
  rewrite E2, !Z.min_l by lia. split; [reflexivity|].
  unfold len in *. rewrite substring_length; lia.
Qed.

Lemma slice_from_zero (s : string) : slice_from s 0 = s.
Proof.
  unfold slice_from, clamp. change (0 <? 0) with false. cbv iota.
  rewrite Z.min_l by (unfold len; lia). rewrite Z.sub_0_r.
  unfold len. rewrite Nat2Z.id. apply substring_all.
Qed.

End Strings.

Section FixedSizeResults.
Import ChunkerSpec.
Variable self : DocumentChunker.
Variables document doc_id : string.

Lemma fixed_size_loop_more_fuel (fuel : nat) :
  forall sp ep id_ chunks r,
    fixed_size_loop fuel self document doc_id sp ep id_ chunks = Some r ->
    forall fuel' : nat,
      (fuel <= fuel')%nat ->
      fixed_size_loop fuel' self document doc_id sp ep id_ chunks = Some r.
Proof.
  induction fuel as [|fuel IH]; intros sp ep id_ chunks r Hrun fuel' Hle;
    [discriminate|].
  destruct fuel' as [|fuel']; [lia|].
  cbn [fixed_size_loop] in *.
  destruct (ep <? len document); [|exact Hrun].
  apply (IH _ _ _ _ _ Hrun). lia.
Qed.

Lemma chunk_fixed_size_more_fuel (fuel fuel' : nat) (chunks : list Chunk) :
  _chunk_fixed_size fuel self document doc_id = Some chunks ->
  (fuel <= fuel')%nat ->
  _chunk_fixed_size fuel' self document doc_id = Some chunks.
Proof.
  unfold _chunk_fixed_size. intros Hrun Hle.
  destruct (fixed_size_loop fuel self document doc_id 0 (chunk_size self) 0 [])
    as [r|] eqn:E; [|discriminate].
  now rewrite (fixed_size_loop_more_fuel _ _ _ _ _ _ E fuel' Hle).
Qed.

(** Whenever the call returns, it returns the closed form. *)
Lemma chunk_fixed_size_returned (fuel : nat) (chunks : list Chunk) :
  0 <= overlap self < chunk_size self ->
  _chunk_fixed_size fuel self document doc_id = Some chunks ->
  exists m : nat,
    chunks
    = (loop_chunks self document doc_id m
       ++ (if 0 <? len document
           then [last_chunk self document doc_id (Z.of_nat m)]
           else []))%list
    /\ len document <= Z.of_nat m * stride self + chunk_size self
    /\ forall i : nat,
        (i < m)%nat ->
        Z.of_nat i * stride self + chunk_size self < len document.
Proof.
  intros Hparams Hrun.
  set (fuel' := Nat.max fuel (S (String.length document))).
  apply chunk_fixed_size_more_fuel with (fuel' := fuel') in Hrun;
    [|unfold fuel'; lia].
  destruct (chunk_fixed_size_closed_form self document doc_id fuel' Hparams)
    as (m & Hm & Hrest).
  - unfold len, fuel'. lia.
  - exists m. split; [congruence|exact Hrest].
Qed.

Lemma nth_error_loop_chunks (n i : nat) (c : Chunk) :
  nth_error (loop_chunks self document doc_id n) i = Some c ->
  (i < n)%nat /\ c = loop_chunk self document doc_id (Z.of_nat i).
Proof.
  induction n as [|n IH]; intros H.
  - destruct i; discriminate.
  - rewrite loop_chunks_S in H.
    assert (Hlen : List.length (loop_chunks self document doc_id n) = n)
      by (unfold loop_chunks; now rewrite length_map, length_seq).
    destruct (Nat.lt_ge_cases i n) as [Hi|Hi].
    + rewrite nth_error_app1 in H by lia.
      destruct (IH H) as [_ ->]. split; [lia|reflexivity].
    + rewrite nth_error_app2 in H by lia. rewrite Hlen in H.
      destruct (i - n)%nat as [|k] eqn:E; simpl in H.
      * injection H as <-. replace i with n by lia. split; [lia|reflexivity].
      * destruct k; discriminate.
Qed.

End FixedSizeResults.

(** For [0 <= overlap < chunk_size], the chunk at position [i] of the
    result has [chunk_id = i], starts at [i * (chunk_size - overlap)], lies
    within the document, is not empty and not longer than [chunk_size], its
    text is the slice [document[start_pos : end_pos + 1]], and its metadata
    holds the [doc_id], [len(text) // 4] and the strategy. *)
Theorem chunk_fixed_size_chunks (self : DocumentChunker)
  (document doc_id : string) (fuel : nat) (chunks : list Chunk) :
  0 <= overlap self < chunk_size self ->
  _chunk_fixed_size fuel self document doc_id = Some chunks ->
  forall (i : nat) (c : Chunk),
    nth_error chunks i = Some c -> chunk_of self document doc_id i c.
Proof.
  intros Hparams Hrun i c Hc.
  destruct (chunk_fixed_size_returned self document doc_id fuel chunks
              Hparams Hrun) as (m & -> & Hexit & Hall).
  assert (Hlen : List.length (ChunkerSpec.loop_chunks self document doc_id m)
                 = m)
    by (unfold ChunkerSpec.loop_chunks; now rewrite length_map, length_seq).
  assert (Hstride : 0 < ChunkerSpec.stride self)
    by (unfold ChunkerSpec.stride; lia).
  destruct (Nat.lt_ge_cases i m) as [Hi|Hi].
  - rewrite nth_error_app1 in Hc by lia.
    apply nth_error_loop_chunks in Hc. destruct Hc as [_ ->].
    pose proof (Hall i Hi) as Hin.
    assert (H0 : 0 <= Z.of_nat i * ChunkerSpec.stride self) by lia.
    destruct (slice_inside document (Z.of_nat i * ChunkerSpec.stride self)
                (Z.of_nat i * ChunkerSpec.stride self + chunk_size self))
      as [_ Hslen]; [lia|lia|].
    unfold chunk_of, ChunkerSpec.loop_chunk. cbn [chunk_id start_pos end_pos
      text metadata].
    fold (ChunkerSpec.stride self).
    repeat split; try lia; try reflexivity; try (f_equal; lia).
  - rewrite nth_error_app2 in Hc by lia. rewrite Hlen in Hc.
    destruct (0 <? len document) eqn:E0;
      [|destruct (i - m)%nat; discriminate].
    apply Z.ltb_lt in E0.
    destruct (i - m)%nat as [|k] eqn:E; [|destruct k; discriminate].
    simpl in Hc. injection Hc as <-.
    assert (i = m) by lia. subst i.
    assert (Hsp : 0 <= Z.of_nat m * ChunkerSpec.stride self < len document).
    { split; [lia|]. destruct m as [|m']; [simpl; lia|].
      pose proof (Hall m' ltac:(lia)). unfold ChunkerSpec.stride in *. lia. }
    destruct (slice_from_inside document
                (Z.of_nat m * ChunkerSpec.stride self)) as [Hs Hslen]; [lia|].
    unfold chunk_of, ChunkerSpec.last_chunk. cbn [chunk_id start_pos end_pos
      text metadata].
    fold (ChunkerSpec.stride self).
    repeat split; try lia; try reflexivity;
      try (rewrite Hs; f_equal; lia).
Qed.

Lemma chunk_fixed_size_chunks_witness :
  chunk_of (mkDocumentChunker FIXED_SIZE 4 1) "abcdefghij" "d" 1
    (mkChunk 1 "defg" 3 6
       [("doc_id", AStr "d"); ("token_count", AInt 1);
        ("strategy", AStrategy FIXED_SIZE)]).
Proof.
  apply (chunk_fixed_size_chunks (mkDocumentChunker FIXED_SIZE 4 1)
           "abcdefghij" "d" 10
           [mkChunk 0 "abcd" 0 3
              [("doc_id", AStr "d"); ("token_count", AInt 1);
               ("strategy", AStrategy FIXED_SIZE)];
            mkChunk 1 "defg" 3 6
              [("doc_id", AStr "d"); ("token_count", AInt 1);
               ("strategy", AStrategy FIXED_SIZE)];
            mkChunk 2 "ghij" 6 9
              [("doc_id", AStr "d"); ("token_count", AInt 1);
               ("strategy", AStrategy FIXED_SIZE)]]).
  - simpl. lia.
  - vm_compute. reflexivity.
  - reflexivity.
Defined.

(** For [0 <= overlap < chunk_size] the loop ends, within [len(document) + 1]
    tests of its condition, and the chunks cover the document: every
    position lies between the [start_pos] and the [end_pos] of a chunk. *)
Theorem chunk_fixed_size_covers (self : DocumentChunker)
  (document doc_id : string) (fuel : nat) :
  0 <= overlap self < chunk_size self ->
  len document < Z.of_nat fuel ->
  exists chunks,
    _chunk_fixed_size fuel self document doc_id = Some chunks
    /\ forall p, 0 <= p < len document ->
         exists c, In c chunks /\ start_pos c <= p <= end_pos c.
Proof.
  intros Hparams Hfuel.
  destruct (chunk_fixed_size_closed_form self document doc_id fuel
              Hparams Hfuel) as (m & Hrun & Hexit & Hall).
  eexists. split; [exact Hrun|].
  intros p Hp.
  assert (Hstride : 0 < ChunkerSpec.stride self)
    by (unfold ChunkerSpec.stride; lia).
  pose proof (Z.div_mod p (ChunkerSpec.stride self) ltac:(lia)) as Hdiv.
  pose proof (Z.mod_pos_bound p (ChunkerSpec.stride self) Hstride) as Hmod.
  assert (Hq : 0 <= p / ChunkerSpec.stride self)
    by (apply Z.div_pos; lia).
  destruct (Z.lt_ge_cases (p / ChunkerSpec.stride self) (Z.of_nat m))
    as [Hlt|Hge].
  - exists (ChunkerSpec.loop_chunk self document doc_id
              (Z.of_nat (Z.to_nat (p / ChunkerSpec.stride self)))).
    split.
    + apply in_or_app. left. unfold ChunkerSpec.loop_chunks.
      apply in_map_iff.
      exists (Z.to_nat (p / ChunkerSpec.stride self)).
      split; [reflexivity|]. apply in_seq. lia.
    + rewrite Z2Nat.id by assumption. unfold ChunkerSpec.loop_chunk.
      cbn [start_pos end_pos]. unfold ChunkerSpec.stride in *. nia.
  - exists (ChunkerSpec.last_chunk self document doc_id (Z.of_nat m)).
    split.
    + apply in_or_app. right.
      assert (E : (0 <? len document) = true) by (apply Z.ltb_lt; lia).
      rewrite E. now left.
    + unfold ChunkerSpec.last_chunk. cbn [start_pos end_pos]. nia.
Qed.

Lemma chunk_fixed_size_covers_witness :
  exists chunks,
    _chunk_fixed_size 11 (mkDocumentChunker FIXED_SIZE 4 1) "abcdefghij" "d"
    = Some chunks
    /\ forall p, 0 <= p < len "abcdefghij" ->
         exists c, In c chunks /\ start_pos c <= p <= end_pos c.
Proof.
  apply (chunk_fixed_size_covers (mkDocumentChunker FIXED_SIZE 4 1)
           "abcdefghij" "d" 11).
  - simpl. lia.
  - vm_compute. reflexivity.
Defined.

(** A document no longer than [chunk_size] gives one chunk holding the whole
    text, at positions [0 .. len - 1]; the empty document gives no chunk.
    The loop body does not run, whatever [overlap] is. *)
Theorem chunk_fixed_size_short_document (self : DocumentChunker)
  (document doc_id : string) (fuel : nat) :
  len document <= chunk_size self ->
  _chunk_fixed_size (S fuel) self document doc_id
  = Some (if 0 <? len document
          then [mkChunk 0 document 0 (len document - 1)
                  (chunk_metadata self doc_id document)]
          else []).
Proof.
  intros Hshort. unfold _chunk_fixed_size. cbn [fixed_size_loop].
  assert (E : (chunk_size self <? len document) = false)
    by (apply Z.ltb_ge; lia).
  rewrite E. destruct (0 <? len document) eqn:E0; [|reflexivity].
  simpl app. now rewrite slice_from_zero.
Qed.

Lemma chunk_fixed_size_short_document_witness :
  _chunk_fixed_size 1 (mkDocumentChunker FIXED_SIZE 100 50) "Hello" "short"
  = Some (if 0 <? len "Hello"
          then [mkChunk 0 "Hello" 0 (len "Hello" - 1)
                  (chunk_metadata (mkDocumentChunker FIXED_SIZE 100 50)
                     "short" "Hello")]
          else []).
Proof.
  apply (chunk_fixed_size_short_document
           (mkDocumentChunker FIXED_SIZE 100 50) "Hello" "short" 0).
  vm_compute. discriminate.
Defined.

Section Divergence.
Variable self : DocumentChunker.
Variables document doc_id : string.

Lemma fixed_size_loop_spins (fuel : nat) :
  chunk_size self <= overlap self ->
  forall sp ep id_ chunks,
    ep < len document ->
    fixed_size_loop fuel self document doc_id sp ep id_ chunks = None.
Proof.
  intros Hparams.
  induction fuel as [|fuel IH]; intros sp ep id_ chunks Hep; [reflexivity|].
  cbn [fixed_size_loop].
  assert (E : (ep <? len document) = true) by (apply Z.ltb_lt; lia).
  rewrite E. apply IH. lia.
Qed.

End Divergence.

(** When [overlap >= chunk_size] and the document is longer than
    [chunk_size], the loop never ends: [ep] does not grow, and no number of
    passes reaches the end of the document. *)
Theorem chunk_fixed_size_never_returns (self : DocumentChunker)
  (document doc_id : string) :
  chunk_size self <= overlap self ->
  chunk_size self < len document ->
  forall fuel, _chunk_fixed_size fuel self document doc_id = None.
Proof.
  intros Hparams Hlen fuel. unfold _chunk_fixed_size.
  now rewrite fixed_size_loop_spins.
Qed.

Lemma chunk_fixed_size_never_returns_witness :
  _chunk_fixed_size 1000 (mkDocumentChunker FIXED_SIZE 3 3) "abcdef" "d"
  = None.
Proof.
  apply (chunk_fixed_size_never_returns (mkDocumentChunker FIXED_SIZE 3 3)
           "abcdef" "d").
  - simpl. lia.
  - vm_compute. reflexivity.
Defined.

End ChunkerFacts.

(** * The circular buffer *)

Module CircularBufferFacts.
Import Py Iterators IteratorsSpec.

Example buffer_of_three :
  match add_all (init 3) ["item_0"; "item_1"; "item_2"; "item_3"; "item_4";
                          "item_5"] with
  | Returns b => iter b
  | Raises _ => []
  end
  = [Some "item_3"; Some "item_4"; Some "item_5"].
Proof. vm_compute. reflexivity. Qed.

Example buffer_of_zero :
  add (init 0) "x" = Raises IndexError.
Proof. reflexivity. Qed.

Section Lists.
Context {A : Type}.

Lemma lslice_to_firstn (l : list A) (c : Z) :
  0 <= c <= llen l -> lslice_to l c = firstn (Z.to_nat c) l.
Proof.
  intros Hc. unfold lslice_to, lslice, bound.
  change (0 <? 0) with false. cbv iota.
  destruct (c <? 0) eqn:E; [apply Z.ltb_lt in E; lia|].
  rewrite !Z.min_l by lia. rewrite Z.sub_0_r. reflexivity.
Qed.

Lemma lslice_from_skipn (l : list A) (i : Z) :
  0 <= i <= llen l -> lslice_from l i = skipn (Z.to_nat i) l.
Proof.
  intros Hi. unfold lslice_from, lslice, bound.
  destruct (i <? 0) eqn:E; [apply Z.ltb_lt in E; lia|].
  destruct (llen l <? 0) eqn:E'; [apply Z.ltb_lt in E'; lia|].
  rewrite !Z.min_l by lia.
  apply firstn_all2. rewrite length_skipn. unfold llen in *. lia.
Qed.

Lemma replace_nth_split (i : nat) (x : A) (l : list A) :
  (i < List.length l)%nat ->
  replace_nth i x l = (firstn i l ++ x :: skipn (S i) l)%list.
Proof.
  revert i. induction l as [|y l IH]; intros [|i] Hi; simpl in *;
    try lia; [reflexivity|].
  f_equal. apply IH. lia.
Qed.

Lemma replace_nth_length (i : nat) (x : A) (l : list A) :
  List.length (replace_nth i x l) = List.length l.
Proof.
  revert i. induction l as [|y l IH]; intros [|i]; simpl; try reflexivity.
  now rewrite IH.
Qed.

Lemma length_split_at (i : nat) (x : A) (l : list A) :
  (i < List.length l)%nat ->
  List.length (firstn i l ++ x :: skipn (S i) l) = List.length l.
Proof.
  intros Hi. rewrite <- (replace_nth_split i x l Hi).
  apply replace_nth_length.
Qed.

Lemma split_at (i : nat) (l : list A) :
  (i < List.length l)%nat ->
  exists y, l = (firstn i l ++ y :: skipn (S i) l)%list.
Proof.
  revert i. induction l as [|y l IH]; intros [|i] Hi; simpl in *;
    try lia; [now exists y|].
  destruct (IH i ltac:(lia)) as [y' Hy']. exists y'.
  now rewrite <- Hy'.
Qed.

Lemma assign_inside (l : list A) (i : Z) (x : A) :
  0 <= i < llen l -> assign l i x = Returns (replace_nth (Z.to_nat i) x l).
Proof.
  intros Hi. unfold assign.
  destruct (i <? 0) eqn:E; [apply Z.ltb_lt in E; lia|].
  assert (E1 : (0 <=? i) = true) by (apply Z.leb_le; lia).
  assert (E2 : (i <? llen l) = true) by (apply Z.ltb_lt; lia).
  now rewrite E1, E2.
Qed.

Lemma keep_short (n : nat) (l : list A) :
  (List.length l <= n)%nat -> keep n l = l.
Proof.
  intros H. unfold keep. replace (List.length l - n)%nat with 0%nat by lia.
  reflexivity.
Qed.

Lemma keep_length (n : nat) (l : list A) :
  List.length (keep n l) = Nat.min (List.length l) n.
Proof. unfold keep. rewrite length_skipn. lia. Qed.

Lemma keep_keep_app (n : nat) (l r : list A) :
  keep n (keep n l ++ r) = keep n (l ++ r).
Proof.
  destruct (Nat.le_gt_cases (List.length l) n) as [H|H].
  - now rewrite (keep_short n l H).
  - unfold keep at 1 3. rewrite !length_app, keep_length.
    rewrite Nat.min_r by lia. unfold keep.
    replace (skipn (List.length l - n) l ++ r)%list
      with (skipn (List.length l - n) (l ++ r)).
    + rewrite skipn_skipn. f_equal. lia.
    + rewrite skipn_app.
      replace (List.length l - n - List.length l)%nat with 0%nat by lia.
      reflexivity.
Qed.

End Lists.

Section Buffer.
Context {A : Type}.

Lemma init_ok (n : nat) :
  (0 < n)%nat -> buffer_ok n (@init A (Z.of_nat n)).
Proof.
  intros Hn. constructor; simpl; try lia.
  rewrite repeat_length. lia.
Qed.

Lemma iter_length (n : nat) (b : CircularBuffer A) :
  buffer_ok n b -> llen (iter b) = count b.
Proof.
  intros [Hs Hl Hi Hc Hf]. unfold iter.
  destruct (count b =? 0) eqn:E0; [apply Z.eqb_eq in E0; now rewrite E0|].
  apply Z.eqb_neq in E0. rewrite Hs.
  destruct (count b <? Z.of_nat n) eqn:E1.
  - apply Z.ltb_lt in E1.
    rewrite lslice_to_firstn by (unfold llen; lia).
    unfold llen. rewrite length_firstn. lia.
  - apply Z.ltb_ge in E1.
    rewrite lslice_from_skipn, lslice_to_firstn by (unfold llen; lia).
    unfold llen. rewrite length_app, length_skipn, length_firstn. lia.
Qed.

(** One [add]: the item goes last, and the oldest item leaves a full
    buffer. *)
Lemma add_ok (n : nat) (b : CircularBuffer A) (x : A) :
  buffer_ok n b ->
  exists b',
    add b x = Returns b'
    /\ buffer_ok n b'
    /\ iter b' = keep n (iter b ++ [Some x]).
Proof.
  intros Hok. pose proof (iter_length n b Hok) as Hlen.
  destruct Hok as [Hs Hl Hi Hc Hf].
  assert (Hn : (0 < n)%nat) by lia.
  unfold add. rewrite assign_inside by (unfold llen; lia). simpl.
  unfold pymod. rewrite Hs.
  destruct (Z.of_nat n =? 0) eqn:En; [apply Z.eqb_eq in En; lia|]. simpl.
  eexists. split; [reflexivity|].
  assert (Hmod : 0 <= (index b + 1) mod Z.of_nat n < Z.of_nat n)
    by (apply Z.mod_pos_bound; lia).
  set (i := Z.to_nat (index b)) in *.
  assert (Hrl : List.length (replace_nth i (Some x) (buffer b)) = n)
    by now rewrite replace_nth_length.
  split.
  - constructor; simpl; try lia; try assumption.
    intros Hlt. rewrite Z.min_l in * by lia.
    rewrite Hf by lia. apply Z.mod_small. lia.
  - unfold iter at 1. simpl.
    destruct (Z.min (count b + 1) (Z.of_nat n) =? 0) eqn:E0;
      [apply Z.eqb_eq in E0; lia|].
    assert (Hsplit : replace_nth i (Some x) (buffer b)
                     = (firstn i (buffer b)
                        ++ Some x :: skipn (S i) (buffer b))%list)
      by (apply replace_nth_split; lia).
    remember (skipn (S i) (buffer b)) as rest eqn:Hrest.
    remember (firstn i (buffer b)) as front eqn:Hfront.
    assert (Hfl : List.length front = i)
      by (subst front; rewrite length_firstn; lia).
    assert (Hrestl : (List.length rest = n - S i)%nat)
      by (subst rest; rewrite length_skipn; lia).
    assert (Hold : exists y, buffer b = (front ++ y :: rest)%list).
    { subst front rest. apply split_at. lia. }
    destruct Hold as [y Hold].
    assert (Hskip : skipn i (buffer b) = y :: rest).
    { rewrite Hold, skipn_app, Hfl, Nat.sub_diag.
      rewrite skipn_all2 by lia. reflexivity. }
    rewrite Hsplit. clear Hsplit.
    destruct (Z.lt_ge_cases (count b) (Z.of_nat n)) as [Hfill|Hfull].
    + (* the buffer is filling: index = count *)
      assert (Hic : i = Z.to_nat (count b)) by (unfold i; rewrite Hf; lia).
      assert (Hiter : iter b = front).
      { unfold iter. destruct (count b =? 0) eqn:Ec.
        - apply Z.eqb_eq in Ec.
          destruct front; [reflexivity|simpl in Hfl; lia].
        - rewrite Hs. apply Z.ltb_lt in Hfill. rewrite Hfill.
          rewrite lslice_to_firstn by (unfold llen; lia).
          rewrite Hfront. now rewrite Hic. }
      rewrite keep_short
        by (rewrite length_app; simpl; unfold llen in Hlen; lia).
      rewrite Hiter.
      assert (Hwhole : List.length (front ++ Some x :: rest) = n)
        by (rewrite length_app; simpl; lia).
      destruct (Z.min (count b + 1) (Z.of_nat n) <? Z.of_nat n) eqn:E1.
      * apply Z.ltb_lt in E1. rewrite Z.min_l by lia.
        rewrite lslice_to_firstn by (unfold llen; lia).
        replace (Z.to_nat (count b + 1)) with (List.length front + 1)%nat
          by lia.
        rewrite firstn_app_2. reflexivity.
      * apply Z.ltb_ge in E1.
        assert (Hzero : (index b + 1) mod Z.of_nat n = 0).
        { replace (index b + 1) with (Z.of_nat n) by lia.
          apply Z.mod_same. lia. }
        rewrite Hzero.
        rewrite lslice_from_skipn, lslice_to_firstn by (unfold llen; lia).
        destruct rest; [|simpl in Hrestl; lia].
        simpl. now rewrite app_nil_r.
    + (* the buffer is full *)
      assert (E1 : (Z.min (count b + 1) (Z.of_nat n) <? Z.of_nat n) = false)
        by (apply Z.ltb_ge; lia).
      rewrite E1.
      assert (Hiter : iter b = (y :: rest ++ front)%list).
      { unfold iter. destruct (count b =? 0) eqn:Ec;
          [apply Z.eqb_eq in Ec; lia|].
        rewrite Hs. assert (E2 : (count b <? Z.of_nat n) = false)
          by (apply Z.ltb_ge; lia).
        rewrite E2.
        rewrite lslice_from_skipn, lslice_to_firstn by (unfold llen; lia).
        fold i. rewrite Hskip, <- Hfront. reflexivity. }
      assert (Hkeep : keep n (iter b ++ [Some x])
                      = (rest ++ front ++ [Some x])%list).
      { rewrite Hiter. unfold keep.
        assert (Hl1 : List.length ((y :: rest ++ front) ++ [Some x])
                      = S n).
        { rewrite length_app. cbn [List.length]. rewrite length_app. lia. }
        rewrite Hl1. replace (S n - n)%nat with 1%nat by lia.
        simpl. now rewrite <- app_assoc. }
      rewrite Hkeep.
      assert (Hwhole : List.length (front ++ Some x :: rest) = n)
        by (rewrite length_app; simpl; lia).
      destruct (Z.lt_ge_cases (index b + 1) (Z.of_nat n)) as [Hin|Hwrap].
      * rewrite Z.mod_small by lia.
        rewrite lslice_from_skipn, lslice_to_firstn by (unfold llen; lia).
        replace (Z.to_nat (index b + 1)) with (List.length front + 1)%nat
          by lia.
        rewrite firstn_app_2.
        replace (front ++ Some x :: rest)%list
          with ((front ++ [Some x]) ++ rest)%list
          by (now rewrite <- app_assoc).
        rewrite skipn_app.
        rewrite (skipn_all2 (front ++ [Some x]))
          by (rewrite length_app; simpl; lia).
        replace (List.length front + 1
                 - List.length (front ++ [Some x]))%nat with 0%nat
          by (rewrite length_app; simpl; lia).
        reflexivity.
      * assert (Hzero : (index b + 1) mod Z.of_nat n = 0).
        { replace (index b + 1) with (Z.of_nat n) by lia.
          apply Z.mod_same. lia. }
        rewrite Hzero.
        rewrite lslice_from_skipn, lslice_to_firstn by (unfold llen; lia).
        destruct rest; [|simpl in Hrestl; lia].
        simpl. now rewrite app_nil_r.
Qed.

Lemma add_all_ok (n : nat) (items : list A) :
  forall b,
    buffer_ok n b ->
    exists b',
      add_all b items = Returns b'
      /\ buffer_ok n b'
      /\ iter b' = keep n (iter b ++ map Some items).
Proof.
  induction items as [|x items IH]; intros b Hok; simpl.
  - exists b. split; [reflexivity|]. split; [assumption|].
    rewrite app_nil_r. symmetry. apply keep_short.
    pose proof (iter_length n b Hok) as Hlen. destruct Hok.
    unfold llen in Hlen. lia.
  - destruct (add_ok n b x Hok) as (b1 & -> & Hok1 & Hiter1). simpl.
    destruct (IH b1 Hok1) as (b' & Hrun & Hok' & Hiter').
    exists b'. split; [assumption|]. split; [assumption|].
    rewrite Hiter', Hiter1, keep_keep_app, <- app_assoc. reflexivity.
Qed.

End Buffer.

(** A buffer of [size > 0] slots that was given the items [items], one
    [add] each, holds the last [min(len(items), size)] of them, and
    iterating yields them oldest first. No [add] raises. *)
Theorem circular_buffer_keeps_last {A : Type} (size : Z) (items : list A) :
  0 < size ->
  exists b,
    add_all (init size) items = Returns b
    /\ iter b
       = map Some (skipn (List.length items - Z.to_nat size) items)
    /\ count b = Z.min (llen items) size.
Proof.
  intros Hsize.
  assert (Hok : buffer_ok (Z.to_nat size) (@init A size)).
  { rewrite <- (Z2Nat.id size) at 2 by lia. apply init_ok. lia. }
  destruct (add_all_ok (Z.to_nat size) items _ Hok)
    as (b & Hrun & Hok' & Hiter).
  exists b. split; [assumption|].
  assert (Hempty : iter (@init A size) = []) by reflexivity.
  rewrite Hempty in Hiter. simpl in Hiter.
  assert (Hshape : iter b
                   = map Some (skipn (List.length items - Z.to_nat size)
                                 items)).
  { rewrite Hiter. unfold keep. rewrite length_map. now rewrite skipn_map. }
  split; [exact Hshape|].
  rewrite <- (iter_length _ _ Hok'). rewrite Hshape.
  unfold llen. rewrite length_map, length_skipn. lia.
Qed.

Lemma circular_buffer_keeps_last_witness :
  exists b,
    add_all (init 3) ["item_0"; "item_1"; "item_2"; "item_3"; "item_4"]
    = Returns b
    /\ iter b
       = map Some
           (skipn (List.length ["item_0"; "item_1"; "item_2"; "item_3";
                                "item_4"] - Z.to_nat 3)
              ["item_0"; "item_1"; "item_2"; "item_3"; "item_4"])
    /\ count b
       = Z.min (llen ["item_0"; "item_1"; "item_2"; "item_3"; "item_4"]) 3.
Proof.
  apply (circular_buffer_keeps_last 3
           ["item_0"; "item_1"; "item_2"; "item_3"; "item_4"]).
  lia.
Defined.

(** A buffer of [size <= 0] has no slot: every [add] raises [IndexError],
    and iterating yields nothing. *)
Theorem circular_buffer_without_slots {A : Type} (size : Z) (item : A) :
  size <= 0 ->
  add (init size) item = Raises IndexError /\ iter (@init A size) = [].
Proof.
  intros Hsize. split; [|reflexivity].
  unfold add, init. simpl.
  replace (Z.to_nat size) with 0%nat by lia. reflexivity.
Qed.

Lemma circular_buffer_without_slots_witness :
  add (init 0) "x" = Raises IndexError /\ iter (@init string 0) = [].
Proof.
  apply (circular_buffer_without_slots 0 "x"). lia.
Defined.

End CircularBufferFacts.

(** * Generators *)

Module GeneratorsFacts.
Import Py Generators.

Example batches_of_three :
  batch_processor [1; 2; 3; 4; 5; 6; 7] 3
  = Returns [[1; 2; 3]; [4; 5; 6]; [7]].
Proof. vm_compute. reflexivity. Qed.

Example fibonacci_under_100 :
  fibonacci_sequence 20 100
  = Some [0; 1; 1; 2; 3; 5; 8; 13; 21; 34; 55; 89].
Proof. vm_compute. reflexivity. Qed.

Section Batches.
Context {A : Type}.

Lemma firstn_add_skipn (a b : nat) (l : list A) :
  firstn (a + b) l = (firstn a l ++ firstn b (skipn a l))%list.
Proof.
  revert l. induction a as [|a IH]; intros l; [reflexivity|].
  destruct l as [|x l]; simpl; [now rewrite firstn_nil|].
  now rewrite IH.
Qed.

Lemma concat_batches (k : nat) (l : list A) (m : nat) :
  List.concat (map (fun j => firstn k (skipn (j * k) l)) (seq 0 m))
  = firstn (m * k) l.
Proof.
  induction m as [|m IH]; [reflexivity|].
  rewrite seq_S, map_app, concat_app, IH. simpl.
  rewrite app_nil_r. rewrite <- firstn_add_skipn. f_equal. lia.
Qed.

(** A slice that starts inside the list. *)
Lemma lslice_inside (l : list A) (a k : Z) :
  0 <= a <= llen l -> 0 <= k ->
  lslice l a (a + k) = firstn (Z.to_nat k) (skipn (Z.to_nat a) l).
Proof.
  intros Ha Hk. unfold lslice, bound.
  destruct (a <? 0) eqn:E1; [apply Z.ltb_lt in E1; lia|].
  destruct (a + k <? 0) eqn:E2; [apply Z.ltb_lt in E2; lia|].
  rewrite (Z.min_l a) by lia.
  destruct (Z.le_ge_cases (a + k) (llen l)) as [H|H].
  - rewrite Z.min_l by lia. f_equal. lia.
  - rewrite Z.min_r by lia.
    rewrite (firstn_all2 (n := Z.to_nat k))
      by (rewrite length_skipn; unfold llen in *; lia).
    apply firstn_all2. rewrite length_skipn. unfold llen in *. lia.
Qed.

Lemma batches_closed_form (data : list A) (k : Z) :
  0 < k ->
  batch_processor data k
  = Returns
      (map (fun j => firstn (Z.to_nat k) (skipn (j * Z.to_nat k) data))
         (seq 0 (Z.to_nat ((llen data + k - 1) / k)))).
Proof.
  intros Hk. unfold batch_processor, range, range_length.
  destruct (k =? 0) eqn:E0; [apply Z.eqb_eq in E0; lia|].
  apply Z.ltb_lt in Hk. rewrite Hk. apply Z.ltb_lt in Hk.
  simpl and_then. f_equal.
  assert (Hlen : 0 <= llen data) by (unfold llen; lia).
  assert (Hmk : (llen data + k - 1) / k * k <= llen data + k - 1).
  { rewrite Z.mul_comm. apply Z.mul_div_le. lia. }
  rewrite Z.sub_0_r.
  destruct (0 <? llen data) eqn:En.
  - rewrite map_map. apply map_ext_in. intros j Hj. apply in_seq in Hj.
    assert (Hjk : Z.of_nat j * k < llen data) by nia.
    rewrite lslice_inside by lia.
    f_equal. f_equal. lia.
  - apply Z.ltb_ge in En.
    replace (llen data) with 0 by lia.
    rewrite Z.add_0_l. rewrite Z.div_small by lia. reflexivity.
Qed.

End Batches.

(** For a positive [batch_size], the batches, put end to end, are the
    data: nothing is lost, repeated or reordered. There are
    [ceil(len(data) / batch_size)] batches, none is empty, none is longer
    than [batch_size], and all but the last have exactly [batch_size]
    items. *)
Theorem batch_processor_partitions {A : Type} (data : list A)
  (batch_size : Z) :
  0 < batch_size ->
  exists batches,
    batch_processor data batch_size = Returns batches
    /\ List.concat batches = data
    /\ llen batches = (llen data + batch_size - 1) / batch_size
    /\ (forall b, In b batches -> 0 < llen b <= batch_size)
    /\ (forall (j : nat) (b : list A),
          (S j < List.length batches)%nat ->
          nth_error batches j = Some b -> llen b = batch_size).
Proof.
  intros Hk. eexists. split; [now apply batches_closed_form|].
  set (k := Z.to_nat batch_size).
  set (m := Z.to_nat ((llen data + batch_size - 1) / batch_size)).
  assert (Hlen : 0 <= llen data) by (unfold llen; lia).
  assert (Hdiv : 0 <= (llen data + batch_size - 1) / batch_size)
    by (apply Z.div_pos; lia).
  assert (Hmk : (llen data + batch_size - 1) / batch_size * batch_size
                <= llen data + batch_size - 1).
  { rewrite Z.mul_comm. apply Z.mul_div_le. lia. }
  assert (Hmk' : llen data
                 <= (llen data + batch_size - 1) / batch_size * batch_size).
  { pose proof (Z.div_mod (llen data + batch_size - 1) batch_size
                  ltac:(lia)) as Hdm.
    pose proof (Z.mod_pos_bound (llen data + batch_size - 1) batch_size Hk).
    nia. }
  assert (HmZ : Z.of_nat m = (llen data + batch_size - 1) / batch_size)
    by (unfold m; lia).
  assert (HkZ : Z.of_nat k = batch_size) by (unfold k; lia).
  assert (Hcover : (List.length data <= m * k)%nat).
  { apply Nat2Z.inj_le. rewrite Nat2Z.inj_mul, HmZ, HkZ.
    unfold llen in *. lia. }
  assert (Hstart : forall j, (j < m)%nat -> (j * k < List.length data)%nat).
  { intros j Hj. apply Nat2Z.inj_lt. rewrite Nat2Z.inj_mul, HkZ.
    assert (Z.of_nat j <= Z.of_nat m - 1) by lia.
    unfold llen in *. nia. }
  assert (Hkpos : (0 < k)%nat) by lia.
  split; [|split; [|split]].
  - rewrite concat_batches. now apply firstn_all2.
  - unfold llen at 1. rewrite length_map, length_seq. exact HmZ.
  - intros b Hb. apply in_map_iff in Hb. destruct Hb as (j & <- & Hj).
    apply in_seq in Hj. unfold llen.
    rewrite length_firstn, length_skipn.
    pose proof (Hstart j ltac:(lia)). lia.
  - intros j b Hj Hb. rewrite length_map, length_seq in Hj.
    rewrite nth_error_map in Hb.
    destruct (nth_error (seq 0 m) j) as [j'|] eqn:Ej; [|discriminate].
    assert (j' = j).
    { pose proof (nth_error_nth _ _ 0%nat Ej) as Hn.
      rewrite seq_nth in Hn by lia. lia. }
    subst j'. simpl in Hb. injection Hb as <-.
    unfold llen. rewrite length_firstn, length_skipn.
    pose proof (Hstart (S j) Hj) as Hnext. simpl in Hnext. lia.
Qed.

Lemma batch_processor_partitions_witness :
  exists batches,
    batch_processor [1; 2; 3; 4; 5; 6; 7] 3 = Returns batches
    /\ List.concat batches = [1; 2; 3; 4; 5; 6; 7]
    /\ llen batches = (llen [1; 2; 3; 4; 5; 6; 7] + 3 - 1) / 3
    /\ (forall b, In b batches -> 0 < llen b <= 3)
    /\ (forall (j : nat) (b : list Z),
          (S j < List.length batches)%nat ->
          nth_error batches j = Some b -> llen b = 3).
Proof.
  apply (batch_processor_partitions [1; 2; 3; 4; 5; 6; 7] 3). lia.
Defined.

(** A [batch_size] of 0 raises [ValueError]; a negative [batch_size]
    yields no batch at all, whatever the data. *)
Theorem batch_processor_bad_size {A : Type} (data : list A)
  (batch_size : Z) :
  batch_size <= 0 ->
  batch_processor data batch_size
  = if batch_size =? 0 then Raises ValueError else Returns [].
Proof.
  intros Hk. unfold batch_processor, range, range_length.
  destruct (batch_size =? 0) eqn:E0; [reflexivity|].
  apply Z.eqb_neq in E0.
  assert (E1 : (0 <? batch_size) = false) by (apply Z.ltb_ge; lia).
  assert (E2 : (llen data <? 0) = false)
    by (apply Z.ltb_ge; unfold llen; lia).
  now rewrite E1, E2.
Qed.

Lemma batch_processor_bad_size_witness :
  batch_processor [1; 2; 3] (-2)
  = if -2 =? 0 then Raises ValueError else Returns [].
Proof.
  apply (batch_processor_bad_size [1; 2; 3] (-2)). lia.
Defined.

Section Fibonacci.

Lemma fib_pair_snd (n : nat) : snd (fib_pair n) = fib (S n).
Proof. unfold fib. simpl. now destruct (fib_pair n). Qed.

Lemma fib_SS (n : nat) : fib (S (S n)) = fib n + fib (S n).
Proof.
  unfold fib. simpl. destruct (fib_pair n) as [a b]. reflexivity.
Qed.

Lemma fib_bounds (n : nat) :
  0 <= fib n /\ 1 <= fib (S n) /\ Z.of_nat n + 1 <= fib (S (S n)).
Proof.
  induction n as [|n (H0 & H1 & H2)].
  - unfold fib. simpl. lia.
  - rewrite (fib_SS (S n)). lia.
Qed.

Lemma fib_monotone (i j : nat) : (i <= j)%nat -> fib i <= fib j.
Proof.
  induction 1 as [|j _ IH]; [lia|].
  destruct j as [|j]; [unfold fib in *; simpl in *; lia|].
  rewrite fib_SS. pose proof (fib_bounds j). lia.
Qed.

Lemma fibs_S (n : nat) :
  map fib (seq 0 (S n)) = (map fib (seq 0 n) ++ [fib n])%list.
Proof. now rewrite seq_S, map_app. Qed.

(** From the state before test number [i], with enough fuel, the loop
    stops at the first [n >= i] with [fib n >= limit]. *)
Lemma fibonacci_loop_run (limit : Z) (fuel : nat) :
  forall i : nat,
    (1 <= fuel)%nat ->
    limit + 2 <= Z.of_nat i + Z.of_nat fuel ->
    exists n : nat,
      (i <= n)%nat
      /\ fibonacci_loop fuel limit (fib i) (fib (S i)) (map fib (seq 0 i))
         = Some (map fib (seq 0 n))
      /\ limit <= fib n
      /\ forall j : nat, (i <= j < n)%nat -> fib j < limit.
Proof.
  induction fuel as [|fuel IH]; intros i Hfuel Hsum; [lia|].
  cbn [fibonacci_loop].
  destruct (fib i <? limit) eqn:E.
  - apply Z.ltb_lt in E.
    assert (Hi : Z.of_nat i <= fib i + 1).
    { destruct i as [|[|i]]; [unfold fib; simpl; lia..|].
      pose proof (fib_bounds i). lia. }
    destruct (IH (S i)) as (n & Hn & Hrun & Hexit & Hbelow); [lia|lia|].
    exists n. split; [lia|]. split; [|split; [exact Hexit|]].
    + rewrite <- Hrun, fibs_S, fib_SS. reflexivity.
    + intros j Hj. destruct (Nat.eq_dec j i) as [->|Hne];
        [exact E|apply Hbelow; lia].
  - apply Z.ltb_ge in E. exists i.
    split; [lia|]. split; [reflexivity|]. split; [exact E|].
    intros j Hj. lia.
Qed.

End Fibonacci.

(** [fibonacci_sequence] ends, within [limit + 2] tests of its condition,
    and yields the Fibonacci numbers [fib 0, fib 1, ..., fib (n - 1)], which
    are exactly those below [limit]. *)
Theorem fibonacci_sequence_below_limit (fuel : nat) (limit : Z) :
  (1 <= fuel)%nat ->
  limit + 2 <= Z.of_nat fuel ->
  exists n : nat,
    fibonacci_sequence fuel limit = Some (map fib (seq 0 n))
    /\ forall j : nat, (j < n)%nat <-> fib j < limit.
Proof.
  intros Hfuel Hlimit.
  destruct (fibonacci_loop_run limit fuel 0 Hfuel ltac:(lia))
    as (n & _ & Hrun & Hexit & Hbelow).
  exists n. split; [exact Hrun|].
  intros j. split.
  - intros Hj. apply Hbelow. lia.
  - intros Hj. destruct (Nat.lt_ge_cases j n) as [H|H]; [exact H|].
    pose proof (fib_monotone n j H). lia.
Qed.

Lemma fibonacci_sequence_below_limit_witness :
  exists n : nat,
    fibonacci_sequence 102 100 = Some (map fib (seq 0 n))
    /\ forall j : nat, (j < n)%nat <-> fib j < 100.
Proof.
  apply (fibonacci_sequence_below_limit 102 100); lia.
Defined.

End GeneratorsFacts.

(** * The task repository and service *)

Module OopsFacts.
Import Py Oops OopsSpec.

Example service_assigns_ids :
  let s0 := mkTaskService 100 in
  match create_task "First task" 2 s0 empty_world with
  | (Returns t1, (s1, w1)) =>
      match create_task "Second task" 3 s1 w1 with
      | (Returns t2, (s2, w2)) =>
          (id (objects w2 t1), id (objects w2 t2),
           fst (get 100 w2), fst (get 101 w2), _next_id s2)
      | _ => (0, 0, Raises KeyError_, Raises KeyError_, 0)
      end
  | _ => (0, 0, Raises KeyError_, Raises KeyError_, 0)
  end
  = (100, 101, Returns 1%nat, Returns 3%nat, 102).
Proof. vm_compute. reflexivity. Qed.

Section TaskDict.

Lemma tasks_get_None (k : Z) (d : task_dict) :
  tasks_get k d = None <-> ~ In k (task_keys d).
Proof.
  induction d as [|[k' a'] d IH]; simpl; [tauto|].
  destruct (Z.eqb_spec k k') as [->|Hne].
  - split; [discriminate|]. intros H. exfalso. apply H. now left.
  - rewrite IH. split; [|tauto]. intros H [E|E]; [now subst|tauto].
Qed.

Lemma tasks_get_Some (k : Z) (d : task_dict) :
  In k (task_keys d) -> exists a, tasks_get k d = Some a.
Proof.
  intros H. destruct (tasks_get k d) as [a|] eqn:E; [now exists a|].
  apply tasks_get_None in E. contradiction.
Qed.

Lemma tasks_set_new (k : Z) (a : address) (d : task_dict) :
  tasks_get k d = None -> tasks_set k a d = (d ++ [(k, a)])%list.
Proof.
  induction d as [|[k' a'] d IH]; simpl; [reflexivity|].
  destruct (k =? k'); [discriminate|]. intros H. now rewrite IH.
Qed.

Lemma tasks_get_app (k : Z) (d d' : task_dict) :
  tasks_get k (d ++ d') =
  match tasks_get k d with
  | Some a => Some a
  | None => tasks_get k d'
  end.
Proof.
  induction d as [|[k' a'] d IH]; simpl; [reflexivity|].
  now destruct (k =? k').
Qed.

End TaskDict.

(** [add] of a task whose id is not yet a key stores the object itself:
    [get] returns it, [list_all] lists it last, no Task object changes,
    and every other id is looked up as before. *)
Theorem repository_add_then_get (task : address) (w : world) :
  ~ In (id (objects w task)) (task_keys (_tasks w)) ->
  exists w',
    add task w = (Returns tt, w')
    /\ get (id (objects w task)) w' = (Returns task, w')
    /\ list_all w' = (list_all w ++ [task])%list
    /\ objects w' = objects w
    /\ forall k, k <> id (objects w task) ->
                 fst (get k w') = fst (get k w).
Proof.
  intros Hnew. apply tasks_get_None in Hnew.
  unfold add. rewrite Hnew. eexists. split; [reflexivity|].
  rewrite (tasks_set_new _ _ _ Hnew).
  unfold get, list_all. simpl.
  rewrite tasks_get_app, Hnew. simpl. rewrite Z.eqb_refl.
  split; [reflexivity|]. split; [now rewrite map_app|].
  split; [reflexivity|].
  intros k Hk. rewrite tasks_get_app.
  destruct (tasks_get k (_tasks w)); [reflexivity|].
  simpl. apply Z.eqb_neq in Hk. now rewrite Hk.
Qed.

Lemma repository_add_then_get_witness :
  exists w',
    add 0%nat (snd (new_task (mkTask 1 "A" false 1) empty_world))
    = (Returns tt, w')
    /\ get 1 w' = (Returns 0%nat, w')
    /\ list_all w' = [0%nat]
    /\ objects w'
       = objects (snd (new_task (mkTask 1 "A" false 1) empty_world))
    /\ forall k, k <> 1 -> fst (get k w') = Raises KeyError_.
Proof.
  apply (repository_add_then_get 0%nat
           (snd (new_task (mkTask 1 "A" false 1) empty_world))).
  simpl. tauto.
Defined.

(** A call that the repository refuses changes nothing: [add] of a task
    whose id is already stored raises [ValueError], and [get] and
    [mark_done] of an id that is not stored raise [KeyError]. *)
Theorem repository_refusals (task : address) (task_id : Z) (w : world) :
  (In (id (objects w task)) (task_keys (_tasks w)) ->
   add task w = (Raises ValueError, w))
  /\ (~ In task_id (task_keys (_tasks w)) ->
      get task_id w = (Raises KeyError_, w)
      /\ mark_done task_id w = (Raises KeyError_, w)).
Proof.
  split.
  - intros Hdup. apply tasks_get_Some in Hdup. destruct Hdup as [a Ha].
    unfold add. now rewrite Ha.
  - intros Hmiss. apply tasks_get_None in Hmiss.
    unfold get, mark_done. now rewrite Hmiss.
Qed.

Lemma repository_refusals_witness :
  add 1%nat (mkWorld (fun _ => mkTask 1 "B" false 1) 2%nat [(1, 0%nat)])
  = (Raises ValueError,
     mkWorld (fun _ => mkTask 1 "B" false 1) 2%nat [(1, 0%nat)]).
Proof.
  apply (proj1 (repository_refusals 1%nat 999
                  (mkWorld (fun _ => mkTask 1 "B" false 1) 2%nat
                     [(1, 0%nat)]))).
  simpl. tauto.
Defined.

(** [mark_done] of a stored id marks the stored object itself: whoever
    holds it sees [is_done = True], its other fields stay, it leaves the
    open tasks while the other open tasks stay in place, [list_all] is the
    same, and no other object changes. *)
Theorem repository_mark_done (task_id : Z) (w : world) :
  In task_id (task_keys (_tasks w)) ->
  exists a,
    get task_id w = (Returns a, w)
    /\ mark_done task_id w = (Returns tt, set_done a w)
    /\ get task_id (set_done a w) = (Returns a, set_done a w)
    /\ objects (set_done a w) a
       = mkTask (id (objects w a)) (title (objects w a)) true
           (priority (objects w a))
    /\ (forall b, b <> a -> objects (set_done a w) b = objects w b)
    /\ list_all (set_done a w) = list_all w
    /\ list_open_tasks (set_done a w)
       = filter (fun b => negb (Nat.eqb b a)) (list_open_tasks w).
Proof.
  intros Hin. apply tasks_get_Some in Hin. destruct Hin as [a Ha].
  exists a. unfold get, mark_done. simpl. rewrite Ha.
  repeat split.
  - simpl. now rewrite Nat.eqb_refl.
  - intros b Hb. simpl. apply Nat.eqb_neq in Hb. now rewrite Hb.
  - unfold list_open_tasks. simpl.
    induction (map snd (_tasks w)) as [|b l IH]; simpl; [reflexivity|].
    destruct (Nat.eqb b a) eqn:E; simpl.
    + rewrite IH. destruct (negb (is_done (objects w b))); simpl;
        [now rewrite E|reflexivity].
    + rewrite IH. destruct (negb (is_done (objects w b))); simpl;
        [now rewrite E|reflexivity].
Qed.

Lemma repository_mark_done_witness :
  let w := mkWorld (fun _ => mkTask 1 "A" false 1) 1%nat [(1, 0%nat)] in
  exists a,
    get 1 w = (Returns a, w)
    /\ mark_done 1 w = (Returns tt, set_done a w)
    /\ get 1 (set_done a w) = (Returns a, set_done a w)
    /\ objects (set_done a w) a
       = mkTask (id (objects w a)) (title (objects w a)) true
           (priority (objects w a))
    /\ (forall b, b <> a -> objects (set_done a w) b = objects w b)
    /\ list_all (set_done a w) = list_all w
    /\ list_open_tasks (set_done a w)
       = filter (fun b => negb (Nat.eqb b a)) (list_open_tasks w).
Proof.
  apply (repository_mark_done 1
           (mkWorld (fun _ => mkTask 1 "A" false 1) 1%nat [(1, 0%nat)])).
  simpl. tauto.
Defined.

Section FromTasks.

Lemma NoDup_snoc {A : Type} (l : list A) (x : A) :
  NoDup l -> ~ In x l -> NoDup (l ++ [x]).
Proof.
  induction l as [|y l IH]; simpl; intros Hnd Hx.
  - repeat constructor. simpl. tauto.
  - apply NoDup_cons_iff in Hnd. destruct Hnd as [Hy Hl].
    constructor.
    + intros Hin. apply in_app_or in Hin.
      destruct Hin as [Hin|[<-|[]]]; tauto.
    + apply IH; tauto.
Qed.

Lemma map_snd_combine_map {A B : Type} (f : A -> B) (l : list A) :
  map snd (combine (map f l) l) = l.
Proof. induction l as [|a l IH]; simpl; [reflexivity|now rewrite IH]. Qed.

Lemma add_each_returns (tasks : list address) :
  forall w,
    NoDup (task_keys (_tasks w) ++ ids_of w tasks) ->
    exists w',
      add_each tasks w = (Returns tt, w')
      /\ _tasks w' = (_tasks w ++ combine (ids_of w tasks) tasks)%list
      /\ objects w' = objects w /\ fresh w' = fresh w.
Proof.
  induction tasks as [|task tasks IH]; intros w Hnd; simpl.
  - exists w. now rewrite app_nil_r.
  - simpl in Hnd.
    assert (Hnew : tasks_get (id (objects w task)) (_tasks w) = None).
    { apply tasks_get_None. intros Hin.
      apply NoDup_remove_2 in Hnd. apply Hnd.
      apply in_or_app. now left. }
    unfold add. rewrite Hnew.
    rewrite (tasks_set_new _ _ _ Hnew).
    destruct (IH (mkWorld (objects w) (fresh w)
                    (_tasks w ++ [(id (objects w task), task)])))
      as (w' & Hrun & Hdict & Hobj & Hfresh).
    + simpl. unfold task_keys. rewrite map_app. simpl.
      rewrite <- app_assoc. exact Hnd.
    + exists w'. split; [exact Hrun|]. simpl in *.
      split; [|split; assumption].
      rewrite Hdict, <- app_assoc. reflexivity.
Qed.

Lemma add_each_raises (tasks : list address) :
  forall w,
    NoDup (task_keys (_tasks w)) ->
    ~ NoDup (task_keys (_tasks w) ++ ids_of w tasks) ->
    fst (add_each tasks w) = Raises ValueError.
Proof.
  induction tasks as [|task tasks IH]; intros w Hkeys Hdup; simpl.
  - exfalso. apply Hdup. simpl. now rewrite app_nil_r.
  - unfold add.
    destruct (tasks_get (id (objects w task)) (_tasks w)) as [a|] eqn:Hget;
      [reflexivity|].
    rewrite (tasks_set_new _ _ _ Hget).
    apply IH; simpl; unfold task_keys in *; rewrite map_app; simpl.
    + apply tasks_get_None in Hget. unfold task_keys in Hget.
      apply NoDup_snoc; assumption.
    + intros Hnd. apply Hdup. simpl.
      rewrite <- app_assoc in Hnd. exact Hnd.
Qed.

(** [add], and so [from_tasks], writes to the dict only: the Task objects
    stay as they are, whether the call returns or raises. *)
Lemma add_each_objects (tasks : list address) :
  forall w, objects (snd (add_each tasks w)) = objects w.
Proof.
  induction tasks as [|task tasks IH]; intros w; simpl; [reflexivity|].
  unfold add.
  destruct (tasks_get (id (objects w task)) (_tasks w)); [reflexivity|].
  now rewrite IH.
Qed.

End FromTasks.

(** [from_tasks] builds the repository exactly when the ids of the given
    tasks are pairwise distinct, and then [list_all] returns the given
    objects in the given order; with a repeated id it raises
    [ValueError]. No Task object is changed, on either path. *)
Theorem repository_from_tasks (tasks : list address) (w : world) :
  (NoDup (ids_of w tasks) ->
   exists w',
     from_tasks tasks w = (Returns tt, w')
     /\ list_all w' = tasks /\ objects w' = objects w)
  /\ (~ NoDup (ids_of w tasks) ->
      fst (from_tasks tasks w) = Raises ValueError
      /\ objects (snd (from_tasks tasks w)) = objects w).
Proof.
  unfold from_tasks. split; [|intros Hdup; split;
    [|exact (add_each_objects tasks (new_repository w))]; revert Hdup].
  - intros Hnd.
    destruct (add_each_returns tasks (new_repository w))
      as (w' & Hrun & Hdict & Hobj & _); [exact Hnd|].
    exists w'. split; [exact Hrun|]. split; [|exact Hobj].
    unfold list_all. rewrite Hdict. simpl.
    unfold ids_of. apply map_snd_combine_map.
  - intros Hdup. apply add_each_raises; [constructor|exact Hdup].
Qed.

Lemma repository_from_tasks_witness :
  let w := mkWorld (fun a => mkTask (Z.of_nat a) "T" false 1) 2%nat [] in
  exists w',
    from_tasks [0%nat; 1%nat] w = (Returns tt, w')
    /\ list_all w' = [0%nat; 1%nat] /\ objects w' = objects w.
Proof.
  apply (proj1 (repository_from_tasks [0%nat; 1%nat]
                  (mkWorld (fun a => mkTask (Z.of_nat a) "T" false 1)
                     2%nat []))).
  repeat constructor; simpl; intros H;
    repeat (destruct H as [H|H]; [discriminate H|]); exact H.
Defined.

Section Service.

Lemma validate_priority_iff (p : Z) :
  validate_priority p = true <-> 1 <= p <= 5.
Proof.
  unfold validate_priority. rewrite andb_true_iff, !Z.leb_le. tauto.
Qed.

End Service.

(** With a priority from 1 to 5, a service that alone fills its
    repository always creates the task: a new object with the next id, the
    title and the priority, not done, which [get] then returns and
    [list_all] lists last. The next id grows by one, no older object
    changes, and the service still fills the repository alone. *)
Theorem service_create_task (task_title : string) (task_priority : Z)
  (self : TaskService) (w : world) :
  serves self w ->
  1 <= task_priority <= 5 ->
  exists task w',
    create_task task_title task_priority self w
    = (Returns task, (mkTaskService (_next_id self + 1), w'))
    /\ (fresh w <= task < fresh w')%nat
    /\ objects w' task
       = mkTask (_next_id self) task_title false task_priority
    /\ get (_next_id self) w' = (Returns task, w')
    /\ list_all w' = (list_all w ++ [task])%list
    /\ (forall a, (a < fresh w)%nat -> objects w' a = objects w a)
    /\ serves (mkTaskService (_next_id self + 1)) w'.
Proof.
  intros Hserves Hp. apply validate_priority_iff in Hp.
  unfold create_task, new_task. rewrite Hp. simpl negb. cbv iota.
  assert (Hnew : tasks_get (_next_id self) (_tasks w) = None).
  { apply tasks_get_None. intros Hin. apply Hserves in Hin. lia. }
  unfold add. simpl. rewrite Nat.eqb_refl. simpl.
  rewrite Hnew. rewrite (tasks_set_new _ _ _ Hnew).
  eexists. eexists. split; [reflexivity|]. simpl.
  split; [lia|]. split; [now rewrite Nat.eqb_refl|].
  split; [|split; [|split]].
  - unfold get. simpl. rewrite tasks_get_app, Hnew. simpl.
    now rewrite Z.eqb_refl.
  - unfold list_all. simpl. now rewrite map_app.
  - intros a Ha.
    destruct (Nat.eqb_spec a (S (fresh w))) as [E|_]; [lia|].
    destruct (Nat.eqb_spec a (fresh w)) as [E|_]; [lia|]. reflexivity.
  - intros k Hk. simpl in *. unfold task_keys in Hk.
    rewrite map_app in Hk. apply in_app_or in Hk.
    destruct Hk as [Hk|[<-|[]]]; [apply Hserves in Hk; lia|simpl; lia].
Qed.

Lemma service_create_task_witness :
  exists task w',
    create_task "First task" 2 (mkTaskService 100) empty_world
    = (Returns task, (mkTaskService (100 + 1), w'))
    /\ (0 <= task < fresh w')%nat
    /\ objects w' task = mkTask 100 "First task" false 2
    /\ get 100 w' = (Returns task, w')
    /\ list_all w' = ([] ++ [task])%list
    /\ (forall a, (a < 0)%nat -> objects w' a = objects empty_world a)
    /\ serves (mkTaskService (100 + 1)) w'.
Proof.
  apply (service_create_task "First task" 2 (mkTaskService 100) empty_world).
  - intros k [].
  - lia.
Defined.

(** With a priority outside 1 to 5, or when the next id is already stored,
    [create_task] raises [ValueError]; the next id, the stored tasks and
    every older object stay as they were. *)
Theorem service_create_task_raises (task_title : string)
  (task_priority : Z) (self : TaskService) (w : world) :
  ~ (1 <= task_priority <= 5)
  \/ In (_next_id self) (task_keys (_tasks w)) ->
  exists w',
    create_task task_title task_priority self w
    = (Raises ValueError, (self, w'))
    /\ _tasks w' = _tasks w
    /\ forall a, (a < fresh w)%nat -> objects w' a = objects w a.
Proof.
  intros Hbad. unfold create_task, new_task.
  destruct (validate_priority task_priority) eqn:Hp; simpl negb; cbv iota.
  - destruct Hbad as [Hbad|Hdup];
      [apply validate_priority_iff in Hp; contradiction|].
    apply tasks_get_Some in Hdup. destruct Hdup as [a0 Ha0].
    unfold add. simpl. rewrite Nat.eqb_refl. simpl. rewrite Ha0.
    eexists. split; [reflexivity|]. simpl. split; [reflexivity|].
    intros a Ha.
    destruct (Nat.eqb_spec a (S (fresh w))) as [E|_]; [lia|].
    destruct (Nat.eqb_spec a (fresh w)) as [E|_]; [lia|]. reflexivity.
  - eexists. split; [reflexivity|]. simpl. split; [reflexivity|].
    intros a Ha.
    destruct (Nat.eqb_spec a (fresh w)) as [E|_]; [lia|]. reflexivity.
Qed.

Lemma service_create_task_raises_witness :
  exists w',
    create_task "Bad priority" 10 (mkTaskService 100) empty_world
    = (Raises ValueError, (mkTaskService 100, w'))
    /\ _tasks w' = _tasks empty_world
    /\ forall a, (a < fresh empty_world)%nat ->
                 objects w' a = objects empty_world a.
Proof.
  apply (service_create_task_raises "Bad priority" 10 (mkTaskService 100)
           empty_world).
  left. lia.
Defined.

End OopsFacts.
